(** * ReversibleKeyMap: a map addressed by an unordered couple of keys

    Shallow embedding of [src/ts/src/ReversibleKeyMap.ts] and the
    properties its specification states about it.

    The class keeps one field, [map : Map<K, Map<K, T>>].  A JavaScript
    [Map] remembers insertion order, [set] on a key that is already there
    keeps the entry at its place, and a method called on [undefined]
    throws a [TypeError].  The three facts are modelled explicitly:
    maps are association lists in insertion order, and the methods live
    in a state monad that can throw. *)

From stdpp Require Import base option list strings.

(** ** JavaScript [Map] and [Set] *)

Abbreviation JsMap K V := (list (K * V)).
Abbreviation JsSet K := (list K).

Module JsMap.
Section defs.
Context {K V : Type} `{EqDecision K}.

(** [Map.prototype.get]: [None] stands for [undefined]. *)
Fixpoint get (k : K) (m : JsMap K V) : option V :=
  match m with
  | [] => None
  | (k', v) :: m' => if decide (k = k') then Some v else get k m'
  end.

Definition has (k : K) (m : JsMap K V) : bool :=
  match get k m with Some _ => true | None => false end.

(** [Map.prototype.set]: overwrite in place, or append a new entry. *)
Fixpoint set (k : K) (v : V) (m : JsMap K V) : JsMap K V :=
  match m with
  | [] => [(k, v)]
  | (k', v') :: m' =>
      if decide (k = k') then (k', v) :: m' else (k', v') :: set k v m'
  end.

Definition delete (k : K) (m : JsMap K V) : JsMap K V :=
  filter (λ e, e.1 ≠ k) m.

Definition size (m : JsMap K V) : nat := length m.

Definition keys (m : JsMap K V) : list K := m.*1.

Definition clear (m : JsMap K V) : JsMap K V := [].
End defs.
End JsMap.

Module JsSet.
Section defs.
Context {K : Type} `{EqDecision K}.

Definition has (k : K) (s : JsSet K) : bool := bool_decide (k ∈ s).

Definition add (k : K) (s : JsSet K) : JsSet K :=
  if has k s then s else s ++ [k].
End defs.
End JsSet.

(** ** Completions and the state monad of a method body *)

Inductive completion (A : Type) : Type :=
  | Normal (a : A)
  | Throw.
Arguments Normal {A} a.
Arguments Throw {A}.

(** A method body over a mutable store [S]: it ends normally with a
    result or throws, and in both cases leaves a store behind. *)
Definition M (S A : Type) : Type := S → completion A * S.

#[global] Instance M_ret {S} : MRet (M S) := λ A a s, (Normal a, s).
#[global] Instance M_bind {S} : MBind (M S) := λ A B f m s,
  match m s with
  | (Normal a, s') => f a s'
  | (Throw, s') => (Throw, s')
  end.

Definition throw {S A} : M S A := λ s, (Throw, s).
Definition read {S A} (f : S → A) : M S A := λ s, (Normal (f s), s).
Definition modify {S} (f : S → S) : M S unit := λ s, (Normal tt, f s).

(** Calling a method on a value that may be [undefined]. *)
Definition deref {S A} (o : option A) : M S A :=
  match o with Some a => mret a | None => throw end.

(** [for (const x of l) body(x)] over a list that the body does not touch. *)
Fixpoint for_each {S X} (l : list X) (body : X → M S unit) : M S unit :=
  match l with
  | [] => mret tt
  | x :: l' => body x;; for_each l' body
  end.

Definition eval {S A} (m : M S A) (s : S) : completion A := (m s).1.
Definition exec {S A} (m : M S A) (s : S) : S := (m s).2.

(** ** The class *)

Module ReversibleKeyMap.
Section defs.
Context {K T : Type} `{EqDecision K}.

(** The field [this.map]. *)
Abbreviation rkm := (JsMap K (JsMap K T)).

(** [this.map.get(k).f(...)] for a method [f] that only reads. *)
Definition inner_read {A} (k : K) (f : JsMap K T → A) : M rkm A :=
  o ← read (JsMap.get k); m ← deref o; mret (f m).

(** [this.map.get(k).f(...)] for a method [f] that mutates the inner
    [Map]: the object is changed in place, so the entry of [k] in
    [this.map] keeps its position. *)
Definition inner_write (k : K) (f : JsMap K T → JsMap K T) : M rkm unit :=
  o ← read (JsMap.get k); m ← deref o; modify (JsMap.set k (f m)).

Definition getAllFrom (k1 : K) : M rkm (option (JsMap K T)) :=
  read (JsMap.get k1).

Definition get (k1 k2 : K) : M rkm (option T) :=
  b ← read (JsMap.has k1);
  if b : bool then inner_read k1 (JsMap.get k2) else mret None.

Definition set (k1 k2 : K) (value : T) : M rkm unit :=
  (b1 ← read (JsMap.has k1);
   if b1 : bool then inner_write k1 (JsMap.set k2 value)
   else modify (JsMap.set k1 [(k2, value)]));;
  (b2 ← read (JsMap.has k2);
   if b2 : bool then inner_write k2 (JsMap.set k1 value)
   else modify (JsMap.set k2 [(k1, value)])).

Definition has (k1 : K) : M rkm bool := read (JsMap.has k1).

Definition hasCouple (k1 k2 : K) : M rkm bool :=
  b ← read (JsMap.has k1);
  if b : bool then inner_read k1 (JsMap.has k2) else mret false.

Definition clear : M rkm unit := modify JsMap.clear.

(** [k1map] and [k2map] are references to the inner maps stored under
    [k1] and [k2]; each is used only while its map is still attached
    to [this.map], so it is read back through its key. *)
Definition delete (k1 k2 : K) : M rkm unit :=
  c ← hasCouple k1 k2;
  if c : bool then
    inner_write k1 (JsMap.delete k2);;
    (n1 ← inner_read k1 JsMap.size;
     if decide (n1 = 0) then modify (JsMap.delete k1) else mret tt);;
    inner_write k2 (JsMap.delete k1);;
    (n2 ← inner_read k2 JsMap.size;
     if decide (n2 = 0) then modify (JsMap.delete k2) else mret tt)
  else mret tt.

(** The [Map] that the loop of [deleteAllFrom] iterates: the inner map
    of [k1].  [delete] detaches it from [this.map] only once it is
    empty, and the loop never attaches a map to [k1] again. *)
Definition iterated (k1 : K) (s : rkm) : JsMap K T :=
  default [] (JsMap.get k1 s).

(** The loop iterates the inner map itself, not a copy.  A [Map]
    iterator visits, in insertion order, the entries that are still in
    the map when it reaches them; [pending] lists the entries after
    the cursor, and an entry deleted in between is skipped.  The body
    only deletes, so no entry is ever appended behind the cursor. *)
Fixpoint deleteAllFrom_loop (k1 : K) (pending : list K) : M rkm unit :=
  match pending with
  | [] => mret tt
  | key :: pending' =>
      (live ← read (λ s, JsMap.has key (iterated k1 s));
       if live : bool then delete k1 key else mret tt);;
      deleteAllFrom_loop k1 pending'
  end.

Definition deleteAllFrom (k1 : K) : M rkm unit :=
  b ← has k1;
  if b : bool then
    o ← getAllFrom k1; m ← deref o;
    deleteAllFrom_loop k1 (JsMap.keys m)
  else mret tt.

(** *** The generator [entries] *)

Abbreviation entry := ((K * K) * T)%type.

(** Store of a running generator: the side table [couples] and the
    items yielded so far. *)
Abbreviation gen := (JsMap K (JsSet K) * list entry)%type.

Definition yield (e : entry) : M gen unit :=
  modify (λ st, (st.1, st.2 ++ [e])).

Definition couples_has (k : K) : M gen bool :=
  read (λ st, JsMap.has k st.1).

Definition couples_new (k : K) : M gen unit :=
  modify (λ st, (JsMap.set k [] st.1, st.2)).

(** [couples.get(k).has(k')] and [couples.get(k).add(k')]; the
    reference [k1set] is [couples.get(key1)] throughout, as a set is
    never replaced in [couples]. *)
Definition couples_read {A} (k : K) (f : JsSet K → A) : M gen A :=
  o ← read (λ st, JsMap.get k st.1); s ← deref o; mret (f s).

Definition couples_write (k : K) (f : JsSet K → JsSet K) : M gen unit :=
  o ← read (λ st, JsMap.get k st.1); s ← deref o;
  modify (λ st, (JsMap.set k (f s) st.1, st.2)).

Definition entries_inner (key1 : K) (e : K * T) : M gen unit :=
  let '(key2, value) := e in
  (b ← couples_has key2;
   if b : bool then mret tt else couples_new key2);;
  (seen ← couples_read key1 (JsSet.has key2);
   if seen : bool then mret tt else yield ((key1, key2), value));;
  couples_write key1 (JsSet.add key2);;
  couples_write key2 (JsSet.add key1).

Definition entries_outer (e : K * JsMap K T) : M gen unit :=
  let '(key1, map) := e in
  (b ← couples_has key1;
   if b : bool then mret tt else couples_new key1);;
  for_each map (entries_inner key1).

(** The generator drained to the end. *)
Definition entries : M rkm (list entry) := λ s,
  match for_each s entries_outer ([], []) with
  | (Normal _, st) => (Normal st.2, s)
  | (Throw, _) => (Throw, s)
  end.

Definition keys : M rkm (list K) := read JsMap.keys.

(** [*[Symbol.iterator]() { yield* this.entries(); }] *)
Definition iterator : M rkm (list entry) := entries.

Definition keysCouples : M rkm (list (K * K)) :=
  es ← iterator; mret (es.*1).

Definition values : M rkm (list T) :=
  es ← iterator; mret (es.*2).

Definition size : M rkm nat := read JsMap.size.

Definition count : M rkm nat :=
  vs ← values; mret (length vs).

(** [new ReversibleKeyMap(it)] *)
Definition new (it : list entry) : rkm :=
  exec (for_each it (λ e, set e.1.1 e.1.2 e.2)) [].

(** *** States reachable through the public methods

    A caller may catch the [TypeError] of a method and go on, so the
    store left behind by a throwing call counts as reachable. *)
Inductive reachable : rkm → Prop :=
  | reachable_new : reachable []
  | reachable_set s k1 k2 v :
      reachable s → reachable (exec (set k1 k2 v) s)
  | reachable_delete s k1 k2 :
      reachable s → reachable (exec (delete k1 k2) s)
  | reachable_deleteAllFrom s k1 :
      reachable s → reachable (exec (deleteAllFrom k1) s)
  | reachable_clear s :
      reachable s → reachable (exec clear s).
End defs.
End ReversibleKeyMap.

(** ** Notions used to state and prove the properties *)

Module ReversibleKeyMapSpec.
Import ReversibleKeyMap.

Section defs.
Context {K T : Type} `{EqDecision K}.
Abbreviation rkm := (JsMap K (JsMap K T)).
Abbreviation entry := ((K * K) * T)%type.

(** The value stored for the ordered couple [(a, b)]. *)
Definition get2 (a b : K) (s : rkm) : option T :=
  JsMap.get a s ≫= JsMap.get b.

(** One direction of [set]: write [k' ↦ v] into the inner map of [k],
    creating that map when [k] is new. *)
Definition upsert (k k' : K) (v : T) (s : rkm) : rkm :=
  JsMap.set k (JsMap.set k' v (iterated k s)) s.

(** One direction of [delete]: drop [k'] from the inner map of [k],
    and drop [k] itself when nothing is left. *)
Definition half (k k' : K) (s : rkm) : rkm :=
  match JsMap.get k s with
  | Some m =>
      if decide (JsMap.size (JsMap.delete k' m) = 0)
      then JsMap.delete k (JsMap.set k (JsMap.delete k' m) s)
      else JsMap.set k (JsMap.delete k' m) s
  | None => s
  end.

(** The loop as the specification describes it: over a copy of the
    co-keys taken before the first deletion. *)
Definition deleteAllFrom_snapshot (k1 : K) : M rkm unit :=
  b ← has k1;
  if b : bool then
    o ← getAllFrom k1; m ← deref o;
    for_each (JsMap.keys m) (delete k1)
  else mret tt.

Record Inv (s : rkm) : Prop := {
  inv_keys : NoDup (JsMap.keys s);
  inv_inner : ∀ k m, JsMap.get k s = Some m → NoDup (JsMap.keys m) ∧ m ≠ [];
  inv_sym : ∀ a b v, get2 a b s = Some v → get2 b a s = Some v
}.

(** The ordered couples of the store in the order of the two nested
    loops of [entries]. *)
Definition row (key1 : K) (m : JsMap K T) : list entry :=
  (λ e, ((key1, e.1), e.2)) <$> m.

Definition flat (s : rkm) : list entry :=
  e ← s; row e.1 e.2.

(** The items of [l] whose couple was not met before in either order;
    [seen] lists the couples met so far. *)
Fixpoint first_visits (seen : list (K * K)) (l : list entry) : list entry :=
  match l with
  | [] => []
  | e :: l' =>
      if decide (e.1 ∈ seen ∨ prod_swap e.1 ∈ seen)
      then first_visits (seen ++ [e.1]) l'
      else e :: first_visits (seen ++ [e.1]) l'
  end.

(** The set registered for [a] in the side table. *)
Definition tab (a : K) (c : JsMap K (JsSet K)) : JsSet K :=
  default [] (JsMap.get a c).

(** The side table records exactly the couples met so far. *)
Definition Tab (c : JsMap K (JsSet K)) (seen : list (K * K)) : Prop :=
  ∀ a b, b ∈ tab a c ↔ (a, b) ∈ seen ∨ (b, a) ∈ seen.

Definition ensure (k : K) (c : JsMap K (JsSet K)) : JsMap K (JsSet K) :=
  if JsMap.has k c then c else JsMap.set k [] c.

Definition record (key1 key2 : K) (c : JsMap K (JsSet K)) :
    JsMap K (JsSet K) :=
  let c1 := ensure key2 c in
  let c2 := JsMap.set key1 (JsSet.add key2 (tab key1 c1)) c1 in
  JsMap.set key2 (JsSet.add key1 (tab key2 c2)) c2.

(** [e] carries the unordered couple [{a, b}]. *)
Definition same_couple (a b : K) (e : entry) : Prop :=
  e.1 = (a, b) ∨ e.1 = (b, a).

#[global] Instance same_couple_dec a b e : Decision (same_couple a b e).
Proof. unfold same_couple. apply _. Defined.

(** The keys of the store, without the values. *)
Definition skel (s : rkm) : list (K * list K) :=
  (λ e, (e.1, JsMap.keys e.2)) <$> s.

(** The value given to the couple [{a, b}] by the last item of [it]
    that carries it. *)
Definition last_value (a b : K) (it : list entry) : option T :=
  snd <$> last (filter (same_couple a b) it).

(** [s'] has no top-level key that [s] has not, and has the keys it
    kept in the order they have in [s]. *)
Definition Kept (s s' : rkm) : Prop :=
  JsMap.keys s' = filter (λ c, JsMap.has c s' = true) (JsMap.keys s) ∧
  ∀ c, JsMap.has c s' = true → JsMap.has c s = true.
End defs.
End ReversibleKeyMapSpec.

(** ** Stores used as examples *)

Import ReversibleKeyMap.

(** [new ReversibleKeyMap().set("a", "b", 1)] *)
Definition store_ab : JsMap string (JsMap string nat) :=
  exec (set "a" "b" 1) (new []).

(** [new ReversibleKeyMap().set("a", "b", 1).set("c", "d", 2)] *)
Definition store_ab_cd : JsMap string (JsMap string nat) :=
  exec (set "c" "d" 2) store_ab.

(** [new ReversibleKeyMap().set("a", "a", 1)] *)
Definition store_aa : JsMap string (JsMap string nat) :=
  exec (set "a" "a" 1) (new []).

(** [new ReversibleKeyMap().set("a", "b", 1).set("a", "a", 2)] *)
Definition store_ab_aa : JsMap string (JsMap string nat) :=
  exec (set "a" "a" 2) store_ab.

(** [new ReversibleKeyMap().set("a", "a", 1).set("a", "b", 2).set("b", "b", 3)] *)
Definition store_aa_ab_bb : JsMap string (JsMap string nat) :=
  exec (set "b" "b" 3) (exec (set "a" "b" 2) store_aa).

(** Four keys and five couples, none of a key with itself. *)
Definition store_four_keys : JsMap string (JsMap string nat) :=
  exec (set "b" "d" 5) (exec (set "b" "c" 4) (exec (set "a" "d" 3)
    (exec (set "a" "c" 2) (exec (set "a" "b" 1) (new []))))).

(** ** Facts about [JsMap] *)

Module JsMapFacts.
Section facts.
Context {K V : Type} `{EqDecision K}.
Implicit Types (k c : K) (v : V) (m : JsMap K V).

Lemma get_set c k v m :
  JsMap.get c (JsMap.set k v m) = if decide (c = k) then Some v else JsMap.get c m.
Proof.
  induction m as [|[k' v'] m IH]; simpl.
  - repeat case_decide; congruence.
  - repeat (case_decide; simpl); try congruence.
Qed.

Lemma get_delete c k m :
  JsMap.get c (JsMap.delete k m) = if decide (c = k) then None else JsMap.get c m.
Proof.
  unfold JsMap.delete.
  induction m as [|[k' v'] m IH]; simpl.
  - by case_decide.
  - rewrite filter_cons; simpl.
    repeat (case_decide; simpl); try congruence.
Qed.

Lemma has_get k m : JsMap.has k m = bool_decide (is_Some (JsMap.get k m)).
Proof.
  unfold JsMap.has. destruct (JsMap.get k m) as [v|].
  - symmetry. apply bool_decide_eq_true. eauto.
  - symmetry. apply bool_decide_eq_false. by intros [? ?].
Qed.

Lemma has_true k m : JsMap.has k m = true ↔ is_Some (JsMap.get k m).
Proof. rewrite has_get. apply bool_decide_eq_true. Qed.

Lemma has_false k m : JsMap.has k m = false ↔ JsMap.get k m = None.
Proof. unfold JsMap.has. by destruct (JsMap.get k m). Qed.

Lemma get_Some_elem k v m : JsMap.get k m = Some v → (k, v) ∈ m.
Proof.
  induction m as [|[k' v'] m IH]; simpl; [done|].
  case_decide; intros Hg.
  - simplify_eq. left.
  - right. auto.
Qed.

Lemma get_is_Some_keys k m : is_Some (JsMap.get k m) ↔ k ∈ JsMap.keys m.
Proof.
  unfold JsMap.keys.
  induction m as [|[k' v'] m IH]; simpl.
  - split; [by intros [? ?]|by intros ?%elem_of_nil].
  - case_decide; subst.
    + split; [intros _; left|eauto].
    + rewrite IH. split; [by right|].
      intros [?|?]%elem_of_cons; [done|done].
Qed.

Lemma elem_get k v m : NoDup (JsMap.keys m) → (k, v) ∈ m → JsMap.get k m = Some v.
Proof.
  unfold JsMap.keys.
  induction m as [|[k' v'] m IH]; simpl; [by intros _ ?%elem_of_nil|].
  intros [Hnin Hnd]%NoDup_cons [Heq|Hin]%elem_of_cons.
  - simplify_eq. by rewrite decide_True.
  - rewrite decide_False; [auto|].
    intros ->. apply Hnin. apply (list_elem_of_fmap_2 fst _ _ Hin).
Qed.

Lemma keys_set k v m :
  JsMap.keys (JsMap.set k v m) =
  if JsMap.has k m then JsMap.keys m else JsMap.keys m ++ [k].
Proof.
  unfold JsMap.keys, JsMap.has.
  induction m as [|[k' v'] m IH]; csimpl; [done|].
  case_decide; csimpl; [done|].
  rewrite IH. by destruct (JsMap.get k m).
Qed.

Lemma keys_delete k m :
  JsMap.keys (JsMap.delete k m) = filter (λ x, x ≠ k) (JsMap.keys m).
Proof.
  unfold JsMap.keys, JsMap.delete.
  induction m as [|[k' v'] m IH]; csimpl; [done|].
  rewrite !filter_cons; csimpl. case_decide; csimpl; by rewrite IH.
Qed.

Lemma NoDup_keys_set k v m :
  NoDup (JsMap.keys m) → NoDup (JsMap.keys (JsMap.set k v m)).
Proof.
  intros Hnd. rewrite keys_set.
  destruct (JsMap.has k m) eqn:Hh; [done|].
  apply NoDup_app. split_and!; [done| |apply NoDup_singleton].
  intros x Hx ->%list_elem_of_singleton.
  apply has_false in Hh. apply get_is_Some_keys in Hx.
  rewrite Hh in Hx. by destruct Hx.
Qed.

Lemma NoDup_keys_delete k m :
  NoDup (JsMap.keys m) → NoDup (JsMap.keys (JsMap.delete k m)).
Proof. intros Hnd. rewrite keys_delete. by apply NoDup_filter. Qed.

Lemma set_nonempty k v m : JsMap.set k v m ≠ [].
Proof. destruct m as [|[k' v'] m]; simpl; [done|]. by case_decide. Qed.

Lemma delete_nil_get k m c :
  JsMap.delete k m = [] → c ≠ k → JsMap.get c m = None.
Proof.
  intros Hd Hc. pose proof (get_delete c k m) as Hg.
  rewrite Hd, decide_False in Hg by done. done.
Qed.

Lemma get_None_all_delete k m :
  (∀ c, c ≠ k → JsMap.get c m = None) → JsMap.delete k m = [].
Proof.
  intros Hall. unfold JsMap.delete.
  induction m as [|[k' v'] m IH]; [done|].
  rewrite filter_cons; simpl.
  destruct (decide (k' = k)) as [->|Hne].
  - rewrite decide_False by (by intros ?).
    apply IH. intros c Hc. specialize (Hall c Hc). simpl in Hall.
    by rewrite decide_False in Hall.
  - specialize (Hall k' Hne). simpl in Hall. by rewrite decide_True in Hall.
Qed.

Lemma length_set_has k v m :
  JsMap.has k m = true → length (JsMap.set k v m) = length m.
Proof.
  intros Hh. rewrite <-(length_fmap fst), <-(length_fmap fst m).
  change (length (JsMap.keys (JsMap.set k v m)) = length (JsMap.keys m)).
  by rewrite keys_set, Hh.
Qed.
(** *** Writes that cancel or commute *)

Lemma set_id k v m : JsMap.get k m = Some v → JsMap.set k v m = m.
Proof.
  induction m as [|[k' v'] m IH]; simpl; [done|].
  case_decide; intros Hg; [by simplify_eq|]. f_equal. by apply IH.
Qed.

Lemma set_set k v v' m :
  JsMap.set k v' (JsMap.set k v m) = JsMap.set k v' m.
Proof.
  induction m as [|[k0 v0] m IH]; simpl.
  - by rewrite decide_True.
  - case_decide; simpl.
    + subst. by rewrite decide_True.
    + rewrite decide_False by done. by rewrite IH.
Qed.

Lemma delete_absent k m : JsMap.get k m = None → JsMap.delete k m = m.
Proof.
  unfold JsMap.delete.
  induction m as [|[k' v'] m IH]; simpl; [done|].
  case_decide; [done|]. intros Hg. rewrite filter_cons. simpl.
  rewrite decide_True by (by intros ->). f_equal. by apply IH.
Qed.

Lemma delete_set k v m :
  JsMap.delete k (JsMap.set k v m) = JsMap.delete k m.
Proof.
  unfold JsMap.delete.
  induction m as [|[k' v'] m IH]; simpl.
  - rewrite filter_cons. simpl. by rewrite decide_False by (by intros ?).
  - case_decide; rewrite !filter_cons; simpl.
    + subst. by rewrite !decide_False by (by intros ?).
    + rewrite IH. done.
Qed.

Lemma delete_set_new k v m :
  JsMap.get k m = None → JsMap.delete k (JsMap.set k v m) = m.
Proof. intros Hg. by rewrite delete_set, delete_absent. Qed.

Lemma delete_set_ne k k' v m :
  k ≠ k' →
  JsMap.delete k (JsMap.set k' v m) = JsMap.set k' v (JsMap.delete k m).
Proof.
  intros Hne. unfold JsMap.delete.
  induction m as [|[k0 v0] m IH]; simpl.
  - rewrite filter_cons. simpl. by rewrite decide_True by (by intros ->).
  - destruct (decide (k' = k0)) as [->|Hk']; rewrite !filter_cons; simpl.
    + destruct (decide (k0 ≠ k)) as [?|?%dec_stable]; [|by subst].
      simpl. by rewrite decide_True.
    + destruct (decide (k0 ≠ k)); simpl; [|done].
      rewrite decide_False by done. by rewrite IH.
Qed.

Lemma set_set_ne k k' v v' m :
  k ≠ k' → JsMap.has k m = true →
  JsMap.set k v (JsMap.set k' v' m) = JsMap.set k' v' (JsMap.set k v m).
Proof.
  intros Hne. unfold JsMap.has.
  induction m as [|[k0 v0] m IH]; simpl; [done|].
  destruct (decide (k = k0)) as [->|Hk].
  - intros _. rewrite decide_False by done. simpl.
    by rewrite decide_True, decide_False.
  - intros Hh. destruct (decide (k' = k0)) as [->|Hk']; simpl.
    + by rewrite decide_False, decide_True.
    + rewrite !decide_False by done. f_equal. by apply IH.
Qed.

End facts.
End JsMapFacts.

(** ** What the methods compute *)

Module ReversibleKeyMapFacts.
Import ReversibleKeyMap ReversibleKeyMapSpec JsMapFacts.

#[local] Set Warnings "-clear-no-such-hyp".

(** Unfolds the monad so that a method body becomes a plain function of
    the store. *)
Ltac run :=
  unfold inner_read, inner_write, couples_read, couples_write, couples_has,
    couples_new, yield, deref, read, modify, throw, eval, exec,
    mbind, M_bind, mret, M_ret in *; simpl in *.

Section facts.
Context {K T : Type} `{EqDecision K}.
Abbreviation rkm := (JsMap K (JsMap K T)).
Implicit Types (k a b : K) (v : T) (m : JsMap K T) (s : rkm).

Abbreviation entry := ((K * K) * T)%type.

Lemma get_run a b s : get a b s = (Normal (get2 a b s), s).
Proof.
  unfold get, get2, JsMap.has. run.
  destruct (JsMap.get a s) eqn:Ha; simpl; by rewrite ?Ha.
Qed.

Lemma hasCouple_run a b s :
  hasCouple a b s = (Normal (JsMap.has b (iterated a s)), s).
Proof.
  unfold hasCouple, iterated, JsMap.has. run.
  destruct (JsMap.get a s) eqn:Ha; simpl; by rewrite ?Ha.
Qed.

Lemma bind_run {S A B} (m : M S A) (f : A → M S B) (st : S) :
  (m ≫= f) st =
  match m st with (Normal a, st') => f a st' | (Throw, st') => (Throw, st') end.
Proof. done. Qed.

Lemma bind_assoc {S A B C} (m : M S A) (f : A → M S B) (g : B → M S C) st :
  ((m ≫= f) ≫= g) st = (m ≫= (λ x, f x ≫= g)) st.
Proof. unfold mbind, M_bind. by destruct (m st) as [[a|] st']. Qed.

Lemma set_run k1 k2 v s :
  set k1 k2 v s = (Normal tt, upsert k2 k1 v (upsert k1 k2 v s)).
Proof.
  assert (Hstep : ∀ k k' s0,
    (b ← read (JsMap.has k);
     if b : bool then inner_write k (JsMap.set k' v)
     else modify (JsMap.set k [(k', v)])) s0 = (Normal tt, upsert k k' v s0)).
  { intros k k' s0. unfold upsert, iterated, JsMap.has. run.
    destruct (JsMap.get k s0) eqn:Hk; simpl; by rewrite ?Hk. }
  unfold set. by rewrite bind_run, !Hstep.
Qed.

Lemma delete_run k1 k2 s :
  delete k1 k2 s =
  if JsMap.has k2 (iterated k1 s)
  then (match JsMap.get k2 (half k1 k2 s) with
        | Some _ => Normal tt
        | None => Throw
        end, half k2 k1 (half k1 k2 s))
  else (Normal tt, s).
Proof.
  assert (Hstep : ∀ k k' s0,
    (inner_write k (JsMap.delete k');;
     (n ← inner_read k JsMap.size;
      if decide (n = 0) then modify (JsMap.delete k) else mret tt)) s0 =
    (match JsMap.get k s0 with Some _ => Normal tt | None => Throw end,
     half k k' s0)).
  { intros k k' s0. unfold half. run.
    destruct (JsMap.get k s0) as [m|] eqn:Hk; simpl; [|done].
    rewrite get_set, decide_True by done. simpl.
    by case_decide. }
  unfold delete. rewrite bind_run, hasCouple_run.
  destruct (JsMap.has k2 (iterated k1 s)) eqn:Hc; [|done].
  assert (is_Some (JsMap.get k1 s)) as [m1 Hm1].
  { unfold iterated in Hc. destruct (JsMap.get k1 s); [eauto|done]. }
  by rewrite <-bind_assoc, bind_run, Hstep, Hm1, Hstep.
Qed.
Lemma deleteAllFrom_run k1 s :
  deleteAllFrom k1 s = deleteAllFrom_loop k1 (JsMap.keys (iterated k1 s)) s.
Proof.
  unfold deleteAllFrom, has, getAllFrom, iterated, JsMap.has. run.
  destruct (JsMap.get k1 s) eqn:Hk; simpl; by rewrite ?Hk.
Qed.

(** *** Lookups after one direction of [set] or [delete] *)

Lemma get_upsert c k k' v s :
  JsMap.get c (upsert k k' v s) =
  if decide (c = k) then Some (JsMap.set k' v (iterated k s))
  else JsMap.get c s.
Proof. unfold upsert. apply get_set. Qed.

Lemma get_half c k k' s :
  JsMap.get c (half k k' s) =
  if decide (c = k)
  then m ← JsMap.get k s;
       if decide (JsMap.size (JsMap.delete k' m) = 0) then None
       else Some (JsMap.delete k' m)
  else JsMap.get c s.
Proof.
  unfold half. destruct (JsMap.get k s) as [m|] eqn:Hk; simpl.
  - destruct (decide (JsMap.size (JsMap.delete k' m) = 0)).
    + rewrite get_delete, get_set. by repeat case_decide.
    + rewrite get_set. by repeat case_decide.
  - case_decide; by subst.
Qed.

Lemma iterated_half c k k' s :
  iterated c (half k k' s) =
  if decide (c = k) then JsMap.delete k' (iterated k s) else iterated c s.
Proof.
  unfold iterated. rewrite get_half. case_decide; [|done].
  destruct (JsMap.get k s) as [m|]; simpl; [|done].
  case_decide as Hsz; simpl; [|done].
  by apply nil_length_inv in Hsz.
Qed.

Lemma get2_iterated a b s : get2 a b s = JsMap.get b (iterated a s).
Proof. unfold get2, iterated. by destruct (JsMap.get a s). Qed.

Lemma get2_upsert c d k k' v s :
  get2 c d (upsert k k' v s) =
  if decide (c = k ∧ d = k') then Some v else get2 c d s.
Proof.
  unfold get2 at 1. rewrite get_upsert.
  destruct (decide (c = k)) as [->|Hc]; simpl.
  - rewrite get_set, get2_iterated. repeat case_decide; naive_solver.
  - rewrite decide_False by naive_solver. done.
Qed.

Lemma get2_half c d k k' s :
  get2 c d (half k k' s) =
  if decide (c = k ∧ d = k') then None else get2 c d s.
Proof.
  rewrite !get2_iterated, iterated_half.
  destruct (decide (c = k)) as [->|Hc].
  - rewrite get_delete. repeat case_decide; naive_solver.
  - rewrite decide_False by naive_solver. done.
Qed.

Lemma get2_set c d k1 k2 v s :
  get2 c d (exec (set k1 k2 v) s) =
  if decide ((c = k1 ∧ d = k2) ∨ (c = k2 ∧ d = k1)) then Some v
  else get2 c d s.
Proof.
  unfold exec. rewrite set_run. simpl. rewrite !get2_upsert.
  repeat case_decide; naive_solver.
Qed.

Lemma exec_delete k1 k2 s :
  exec (delete k1 k2) s =
  if JsMap.has k2 (iterated k1 s) then half k2 k1 (half k1 k2 s) else s.
Proof. unfold exec. rewrite delete_run. by case_match. Qed.

Lemma has_iterated_get2 a b s :
  JsMap.has b (iterated a s) = true ↔ is_Some (get2 a b s).
Proof. by rewrite get2_iterated, has_true. Qed.

(** [delete] leaves every other ordered couple alone, and removes
    [(k1, k2)]; it also removes [(k2, k1)] when the couple was there. *)
Lemma get2_delete_other c d k1 k2 s :
  ¬ (c = k1 ∧ d = k2) → ¬ (c = k2 ∧ d = k1) →
  get2 c d (exec (delete k1 k2) s) = get2 c d s.
Proof.
  intros H1 H2. rewrite exec_delete. case_match; [|done].
  rewrite !get2_half. by rewrite !decide_False.
Qed.

Lemma get2_delete_same k1 k2 s : get2 k1 k2 (exec (delete k1 k2) s) = None.
Proof.
  rewrite exec_delete. case_match eqn:Hc.
  - rewrite !get2_half. repeat case_decide; naive_solver.
  - rewrite get2_iterated. by apply has_false.
Qed.
(** *** The loop of [deleteAllFrom] *)

Lemma loop_step k1 key s :
  (live ← read (λ s, JsMap.has key (iterated k1 s));
   if live : bool then delete k1 key else mret tt) s = delete k1 key s.
Proof.
  rewrite bind_run. unfold read. rewrite delete_run.
  destruct (JsMap.has key (iterated k1 s)) eqn:Hl; [|done].
  by rewrite delete_run, Hl.
Qed.

Lemma loop_cons k1 key pending s :
  deleteAllFrom_loop k1 (key :: pending) s =
  match delete k1 key s with
  | (Normal _, s') => deleteAllFrom_loop k1 pending s'
  | (Throw, s') => (Throw, s')
  end.
Proof. simpl. by rewrite bind_run, loop_step. Qed.

Lemma loop_snapshot k1 pending s :
  deleteAllFrom_loop k1 pending s = for_each pending (delete k1) s.
Proof.
  revert s. induction pending as [|key pending IH]; intros s; [done|].
  rewrite loop_cons. simpl. rewrite bind_run.
  destruct (delete k1 key s) as [[[]|] s']; [apply IH|done].
Qed.

Lemma loop_preserves (P : rkm → Prop) k1 :
  (∀ key s, P s → P (exec (delete k1 key) s)) →
  ∀ pending s, P s → P (exec (deleteAllFrom_loop k1 pending) s).
Proof.
  intros Hd pending. induction pending as [|key pending IH]; intros s Hs.
  - done.
  - unfold exec. rewrite loop_cons.
    specialize (Hd key s Hs). unfold exec in Hd.
    destruct (delete k1 key s) as [[[]|] s']; simpl in *; [|done].
    by apply IH.
Qed.

(** *** The invariant of the store *)

Lemma Inv_nil : Inv ([] : rkm).
Proof. split; [apply NoDup_nil_2|done|done]. Qed.

Lemma NoDup_iterated k s : Inv s → NoDup (JsMap.keys (iterated k s)).
Proof.
  intros Hs. unfold iterated.
  destruct (JsMap.get k s) as [m|] eqn:Hk; simpl.
  - by apply (inv_inner _ Hs k m).
  - apply NoDup_nil_2.
Qed.

Lemma NoDup_keys_half k k' s :
  NoDup (JsMap.keys s) → NoDup (JsMap.keys (half k k' s)).
Proof.
  intros Hnd. unfold half. destruct (JsMap.get k s); [|done].
  case_decide; [apply NoDup_keys_delete|]; by apply NoDup_keys_set.
Qed.

Lemma inner_half k k' s :
  (∀ c m, JsMap.get c s = Some m → NoDup (JsMap.keys m) ∧ m ≠ []) →
  ∀ c m, JsMap.get c (half k k' s) = Some m → NoDup (JsMap.keys m) ∧ m ≠ [].
Proof.
  intros Hin c m. rewrite get_half. case_decide as Hc; [subst c|apply Hin].
  destruct (JsMap.get k s) as [m0|] eqn:Hk; simpl; [|done].
  case_decide as Hsz; [done|]. intros [= <-]. split.
  - apply NoDup_keys_delete. by apply (Hin k m0).
  - intros Hnil. by rewrite Hnil in Hsz.
Qed.

Lemma inner_upsert k k' v s :
  (∀ c m, JsMap.get c s = Some m → NoDup (JsMap.keys m) ∧ m ≠ []) →
  ∀ c m, JsMap.get c (upsert k k' v s) = Some m →
         NoDup (JsMap.keys m) ∧ m ≠ [].
Proof.
  intros Hin c m. rewrite get_upsert. case_decide as Hc; [|apply Hin].
  intros [= <-]. split; [|apply set_nonempty]. apply NoDup_keys_set.
  unfold iterated. destruct (JsMap.get k s) as [m0|] eqn:Hk; simpl.
  - by apply (Hin k m0).
  - apply NoDup_nil_2.
Qed.

Lemma Inv_set k1 k2 v s : Inv s → Inv (exec (set k1 k2 v) s).
Proof.
  intros Hs. split.
  - unfold exec. rewrite set_run. simpl. unfold upsert.
    do 2 apply NoDup_keys_set. apply Hs.
  - unfold exec. rewrite set_run. simpl.
    do 2 apply inner_upsert. apply Hs.
  - intros a b w. rewrite !get2_set.
    repeat case_decide; try naive_solver. apply Hs.
Qed.

Lemma Inv_delete k1 k2 s : Inv s → Inv (exec (delete k1 k2) s).
Proof.
  intros Hs. rewrite exec_delete.
  destruct (JsMap.has k2 (iterated k1 s)) eqn:Hc; [|done].
  split.
  - do 2 apply NoDup_keys_half. apply Hs.
  - do 2 apply inner_half. apply Hs.
  - intros a b w. rewrite !get2_half.
    repeat case_decide; try naive_solver. apply Hs.
Qed.

Lemma Inv_deleteAllFrom k1 s : Inv s → Inv (exec (deleteAllFrom k1) s).
Proof.
  intros Hs. unfold exec. rewrite deleteAllFrom_run.
  apply (loop_preserves Inv); [|done]. intros. by apply Inv_delete.
Qed.

Lemma Inv_reachable s : reachable s → Inv s.
Proof.
  induction 1.
  - apply Inv_nil.
  - by apply Inv_set.
  - by apply Inv_delete.
  - by apply Inv_deleteAllFrom.
  - apply Inv_nil.
Qed.
(** *** The generator [entries] *)

Lemma elem_of_add (b k : K) (st : JsSet K) :
  b ∈ JsSet.add k st ↔ b = k ∨ b ∈ st.
Proof.
  unfold JsSet.add, JsSet.has. case_bool_decide as Hk.
  - naive_solver.
  - rewrite elem_of_app, list_elem_of_singleton. naive_solver.
Qed.

Lemma tab_ensure a k (c : JsMap K (JsSet K)) : tab a (ensure k c) = tab a c.
Proof.
  unfold ensure, tab. destruct (JsMap.has k c) eqn:Hk; [done|].
  rewrite get_set. case_decide; [subst|done].
  apply has_false in Hk. by rewrite Hk.
Qed.

Lemma has_ensure_same k (c : JsMap K (JsSet K)) : JsMap.has k (ensure k c) = true.
Proof.
  unfold ensure. destruct (JsMap.has k c) eqn:Hk; [done|].
  apply has_true. rewrite get_set, decide_True by done. eauto.
Qed.

Lemma has_set_mono {V} a k (x : V) (c : JsMap K V) :
  JsMap.has a c = true → JsMap.has a (JsMap.set k x c) = true.
Proof.
  rewrite !has_true, get_set. case_decide; eauto.
Qed.

Lemma has_ensure_mono a k (c : JsMap K (JsSet K)) :
  JsMap.has a c = true → JsMap.has a (ensure k c) = true.
Proof.
  unfold ensure. destruct (JsMap.has k c); [done|]. apply has_set_mono.
Qed.

Lemma has_record_mono a key1 key2 (c : JsMap K (JsSet K)) :
  JsMap.has a c = true → JsMap.has a (record key1 key2 c) = true.
Proof.
  intros Ha. unfold record. do 2 apply has_set_mono. by apply has_ensure_mono.
Qed.

Lemma Tab_record key1 key2 (c : JsMap K (JsSet K)) seen :
  Tab c seen → Tab (record key1 key2 c) (seen ++ [(key1, key2)]).
Proof.
  intros Hc a b. unfold Tab in Hc. unfold record.
  unfold tab at 1. rewrite get_set.
  rewrite !elem_of_app, !list_elem_of_singleton.
  assert (Hmid : ∀ a' b', b' ∈ tab a'
      (JsMap.set key1 (JsSet.add key2 (tab key1 (ensure key2 c)))
         (ensure key2 c)) ↔
      (a' = key1 ∧ b' = key2) ∨ (a', b') ∈ seen ∨ (b', a') ∈ seen).
  { intros a' b'. unfold tab at 1. rewrite get_set.
    case_decide as Ha; simpl.
    - subst a'. rewrite elem_of_add, tab_ensure, Hc. naive_solver.
    - fold (tab a' (ensure key2 c)). rewrite tab_ensure, Hc. naive_solver. }
  case_decide as Ha; simpl.
  - subst a. rewrite elem_of_add, Hmid. naive_solver.
  - match goal with |- b ∈ default [] (JsMap.get a ?c2) ↔ _ =>
      fold (tab a c2) end.
    rewrite Hmid. naive_solver.
Qed.

Lemma couples_read_run {A} k (f : JsSet K → A) (c : JsMap K (JsSet K))
    (out : list entry) :
  JsMap.has k c = true →
  couples_read k f (c, out) = (Normal (f (tab k c)), (c, out)).
Proof.
  intros [st Hst]%has_true. unfold tab. run. by rewrite Hst.
Qed.

Lemma couples_write_run k (f : JsSet K → JsSet K) (c : JsMap K (JsSet K))
    (out : list entry) :
  JsMap.has k c = true →
  couples_write k f (c, out) =
  (Normal tt, (JsMap.set k (f (tab k c)) c, out)).
Proof.
  intros [st Hst]%has_true. unfold tab. run. by rewrite Hst.
Qed.

Lemma entries_inner_run key1 key2 (value : T) (c : JsMap K (JsSet K)) out :
  JsMap.has key1 c = true →
  entries_inner key1 (key2, value) (c, out) =
  (Normal tt,
   (record key1 key2 c,
    if JsSet.has key2 (tab key1 c) then out
    else out ++ [((key1, key2), value)])).
Proof.
  intros H1. unfold entries_inner.
  assert (He : (b ← couples_has key2;
                if b : bool then mret tt else couples_new key2) (c, out) =
               (Normal tt, (ensure key2 c, out))).
  { unfold ensure. run. by destruct (JsMap.has key2 c). }
  rewrite bind_run, He.
  pose proof (has_ensure_mono key1 key2 c H1) as H1'.
  rewrite bind_run, bind_run, couples_read_run, tab_ensure by done.
  assert (Hy : ∀ b : bool,
    (if b then mret tt else yield ((key1, key2), value)) (ensure key2 c, out) =
    (Normal tt, (ensure key2 c,
                 if b then out else out ++ [((key1, key2), value)]))).
  { by intros []. }
  rewrite Hy, bind_run, couples_write_run by done.
  rewrite couples_write_run; [done|].
  apply has_set_mono, has_ensure_same.
Qed.

Lemma first_visits_app seen (l1 l2 : list entry) :
  first_visits seen (l1 ++ l2) =
  first_visits seen l1 ++ first_visits (seen ++ l1.*1) l2.
Proof.
  revert seen. induction l1 as [|e l1 IH]; intros seen; simpl.
  - by rewrite app_nil_r.
  - rewrite IH, <-app_assoc. simpl. by case_decide.
Qed.

Lemma entries_row_run key1 m (c : JsMap K (JsSet K)) out seen :
  JsMap.has key1 c = true → Tab c seen →
  ∃ c', for_each m (entries_inner key1) (c, out) =
          (Normal tt, (c', out ++ first_visits seen (row key1 m))) ∧
        JsMap.has key1 c' = true ∧
        Tab c' (seen ++ (row key1 m).*1).
Proof.
  revert c out seen.
  induction m as [|[key2 value] m IH]; intros c out seen H1 Hc.
  - exists c. by rewrite !app_nil_r.
  - cbn [for_each]. rewrite bind_run, entries_inner_run by done.
    edestruct (IH (record key1 key2 c)) as (c' & -> & H1' & Hc').
    { by apply has_record_mono. }
    { by apply Tab_record. }
    exists c'. split_and!; [|done|].
    + f_equal. f_equal. unfold row. rewrite fmap_cons.
      cbn [first_visits fst snd prod_swap]. unfold JsSet.has.
      specialize (Hc key1 key2).
      case_bool_decide as Hb; case_decide as Hd; try tauto.
      by rewrite <-app_assoc.
    + unfold row in *. rewrite !fmap_cons. cbn [fst snd].
      by rewrite <-app_assoc in Hc'.
Qed.

Lemma entries_loop_run s (c : JsMap K (JsSet K)) out seen :
  Tab c seen →
  ∃ c', for_each s entries_outer (c, out) =
          (Normal tt, (c', out ++ first_visits seen (flat s))) ∧
        Tab c' (seen ++ (flat s).*1).
Proof.
  revert c out seen.
  induction s as [|[key1 m] s IH]; intros c out seen Hc.
  - exists c. by rewrite !app_nil_r.
  - cbn [for_each].
    assert (He : (b ← couples_has key1;
                  if b : bool then mret tt else couples_new key1) (c, out) =
                 (Normal tt, (ensure key1 c, out))).
    { unfold ensure. run. by destruct (JsMap.has key1 c). }
    rewrite bind_run. unfold entries_outer at 1.
    rewrite bind_run, He.
    destruct (entries_row_run key1 m (ensure key1 c) out seen)
      as (c1 & -> & _ & Hc1).
    { apply has_ensure_same. }
    { intros a b. rewrite tab_ensure. apply Hc. }
    destruct (IH c1 (out ++ first_visits seen (row key1 m))
                (seen ++ (row key1 m).*1) Hc1) as (c' & -> & Hc').
    exists c'. unfold flat. rewrite bind_cons. simpl.
    rewrite first_visits_app, fmap_app, !app_assoc. split; [done|].
    by rewrite <-!app_assoc in Hc' |- *.
Qed.

Lemma entries_run s : entries s = (Normal (first_visits [] (flat s)), s).
Proof.
  unfold entries.
  destruct (entries_loop_run s [] [] []) as (c' & -> & _); [|done].
  intros a b. unfold tab. simpl. rewrite !elem_of_nil. naive_solver.
Qed.
(** *** Each couple comes out once *)

Lemma first_visits_elem seen (l : list entry) e :
  e ∈ first_visits seen l → e ∈ l.
Proof.
  revert seen. induction l as [|e' l IH]; intros seen; simpl; [done|].
  case_decide.
  - intros ?%IH. by right.
  - intros [->|?%IH]%elem_of_cons; [left|by right].
Qed.

Lemma first_visits_seen a b seen (l : list entry) :
  (a, b) ∈ seen ∨ (b, a) ∈ seen →
  filter (same_couple a b) (first_visits seen l) = [].
Proof.
  revert seen. induction l as [|[[x y] w] l IH]; intros seen Hseen; [done|].
  assert (Hseen' : (a, b) ∈ seen ++ [(x, y)] ∨ (b, a) ∈ seen ++ [(x, y)]).
  { rewrite !elem_of_app. tauto. }
  cbn [first_visits fst snd prod_swap]. case_decide as Hd; [by apply IH|].
  rewrite filter_cons_False; [by apply IH|].
  unfold same_couple. simpl. intros [[= -> ->]|[= -> ->]]; tauto.
Qed.

Lemma first_visits_once a b seen (l : list entry) :
  ¬ ((a, b) ∈ seen ∨ (b, a) ∈ seen) →
  (∃ e, e ∈ l ∧ same_couple a b e) →
  ∃ e, filter (same_couple a b) (first_visits seen l) = [e].
Proof.
  revert seen. induction l as [|[[x y] w] l IH]; intros seen Hseen [e [He Hs]].
  { by apply elem_of_nil in He. }
  cbn [first_visits fst snd prod_swap].
  destruct (decide (same_couple a b ((x, y), w))) as [Hxy|Hxy].
  - exists ((x, y), w). rewrite decide_False.
    + rewrite filter_cons_True by done. f_equal.
      apply first_visits_seen. rewrite !elem_of_app, !list_elem_of_singleton.
      destruct Hxy as [[= -> ->]|[= -> ->]]; tauto.
    + destruct Hxy as [[= -> ->]|[= -> ->]]; tauto.
  - assert (∃ e, filter (same_couple a b)
                   (first_visits (seen ++ [(x, y)]) l) = [e]) as [e' He'].
    { apply IH.
      - rewrite !elem_of_app, !list_elem_of_singleton.
        unfold same_couple in Hxy. simpl in Hxy.
        intros [[?|[= -> ->]]|[?|[= -> ->]]]; tauto.
      - apply elem_of_cons in He as [->|He]; [done|]. eauto. }
    exists e'. case_decide; [done|]. by rewrite filter_cons_False.
Qed.

Lemma elem_of_flat a b v s :
  ((a, b), v) ∈ flat s ↔ ∃ m, (a, m) ∈ s ∧ (b, v) ∈ m.
Proof.
  unfold flat, row. rewrite list_elem_of_bind. split.
  - intros [[a' m] [[[b' v'] [[= -> -> ->] Hb]]%list_elem_of_fmap Ha]].
    eauto.
  - intros [m [Ha Hb]]. exists (a, m). split; [|done].
    apply list_elem_of_fmap. by exists (b, v).
Qed.

Lemma get2_flat a b v s : get2 a b s = Some v → ((a, b), v) ∈ flat s.
Proof.
  unfold get2. destruct (JsMap.get a s) as [m|] eqn:Ha; simpl; [|done].
  intros Hb. apply elem_of_flat. exists m.
  split; by apply get_Some_elem.
Qed.

Lemma flat_get2 a b v s : Inv s → ((a, b), v) ∈ flat s → get2 a b s = Some v.
Proof.
  intros Hs [m [Ha Hb]]%elem_of_flat.
  apply elem_get in Ha; [|apply Hs].
  unfold get2. rewrite Ha. simpl.
  apply elem_get; [|done]. by apply (inv_inner _ Hs a m).
Qed.
Lemma get2_sym a b s : Inv s → get2 a b s = get2 b a s.
Proof.
  intros Hs.
  destruct (get2 a b s) as [v|] eqn:Hab.
  - symmetry. by apply Hs.
  - destruct (get2 b a s) as [v|] eqn:Hba; [|done].
    apply Hs in Hba. congruence.
Qed.

Lemma has_get2 k s :
  Inv s → (JsMap.has k s = true ↔ ∃ d v, get2 k d s = Some v).
Proof.
  intros Hs. rewrite has_true. unfold get2. split.
  - intros [m Hm]. rewrite Hm. simpl.
    destruct (inv_inner _ Hs k m Hm) as [_ Hne].
    destruct m as [|[d v] m]; [done|]. exists d, v. simpl.
    by rewrite decide_True.
  - intros (d & v & Hd). destruct (JsMap.get k s); [eauto|done].
Qed.

(** *** [deleteAllFrom] empties the inner map of its key *)

Lemma delete_throw_self k1 k2 s :
  Inv s → eval (delete k1 k2) s = Throw →
  k1 = k2 ∧ iterated k1 (exec (delete k1 k2) s) = [].
Proof.
  intros Hs. unfold eval, exec. rewrite delete_run.
  destruct (JsMap.has k2 (iterated k1 s)) eqn:Hc; [|done]. simpl.
  destruct (JsMap.get k2 (half k1 k2 s)) eqn:Hk2; [done|]. intros _.
  apply has_iterated_get2 in Hc as [v Hv].
  apply (inv_sym _ Hs) in Hv.
  destruct (decide (k2 = k1)) as [->|Hne].
  - split; [done|]. rewrite iterated_half, decide_True by done.
    unfold iterated. by rewrite Hk2.
  - rewrite get_half, decide_False in Hk2 by done.
    unfold get2 in Hv. by rewrite Hk2 in Hv.
Qed.

Lemma iterated_delete k key s :
  JsMap.keys (iterated k (exec (delete k key) s)) ⊆
  filter (λ x, x ≠ key) (JsMap.keys (iterated k s)).
Proof.
  rewrite exec_delete.
  destruct (JsMap.has key (iterated k s)) eqn:Hc.
  - destruct (decide (k = key)) as [->|Hne].
    + rewrite !iterated_half, !decide_True by done.
      rewrite !keys_delete. intros x. rewrite !list_elem_of_filter. tauto.
    + rewrite iterated_half, decide_False by done.
      rewrite iterated_half, decide_True by done.
      by rewrite keys_delete.
  - intros x Hx. apply list_elem_of_filter. split; [|done].
    intros ->. apply get_is_Some_keys, has_true in Hx. congruence.
Qed.

Lemma loop_empties k pending s :
  Inv s → JsMap.keys (iterated k s) ⊆ pending →
  iterated k (exec (deleteAllFrom_loop k pending) s) = [].
Proof.
  revert s. induction pending as [|key pending IH]; intros s Hs Hsub.
  - change (exec (deleteAllFrom_loop k []) s) with s.
    destruct (iterated k s) as [|[d v] m]; [done|].
    specialize (Hsub d). ospecialize (Hsub _); [left|].
    by apply elem_of_nil in Hsub.
  - unfold exec. rewrite loop_cons.
    pose proof (delete_throw_self k key s Hs) as Hthrow.
    pose proof (Inv_delete k key s Hs) as Hs'.
    pose proof (iterated_delete k key s) as Hsub'.
    unfold eval, exec in *.
    destruct (delete k key s) as [[[]|] s']; simpl in *.
    + apply IH; [done|]. intros x Hx. apply Hsub' in Hx.
      apply list_elem_of_filter in Hx as [Hne Hx].
      apply Hsub in Hx. apply elem_of_cons in Hx as [?|?]; done.
    + by apply Hthrow.
Qed.

Lemma deleteAllFrom_has k s :
  Inv s → JsMap.has k (exec (deleteAllFrom k) s) = false.
Proof.
  intros Hs. pose proof (Inv_deleteAllFrom k s Hs) as Hs'.
  unfold exec in *. rewrite deleteAllFrom_run in *.
  pose proof (loop_empties k (JsMap.keys (iterated k s)) s Hs) as He.
  ospecialize (He _); [done|]. unfold exec in He.
  apply has_false. unfold iterated in He at 1.
  destruct (JsMap.get k _) as [m|] eqn:Hk; [|done]. simpl in He. subst m.
  by destruct (inv_inner _ Hs' k [] Hk).
Qed.
(** *** How many couples fit on the keys *)

Lemma first_visits_distinct seen (l : list entry) :
  NoDup (first_visits seen l).*1 ∧
  ∀ p, p ∈ (first_visits seen l).*1 →
    (p ∉ seen) ∧ (prod_swap p ∉ seen) ∧
    (p.1 ≠ p.2 → prod_swap p ∉ (first_visits seen l).*1).
Proof.
  revert seen. induction l as [|[q w] l IH]; intros seen.
  { split; [apply NoDup_nil_2|]. by intros p ?%elem_of_nil. }
  destruct (IH (seen ++ [q])) as [Hnd Hall].
  assert (Hall' : ∀ p, p ∈ (first_visits (seen ++ [q]) l).*1 →
    (p ∉ seen) ∧ (prod_swap p ∉ seen) ∧ p ≠ q ∧ prod_swap p ≠ q ∧
    (p.1 ≠ p.2 → prod_swap p ∉ (first_visits (seen ++ [q]) l).*1)).
  { intros p Hp. destruct (Hall p Hp) as (H1 & H2 & H3).
    rewrite elem_of_app, list_elem_of_singleton in H1, H2. tauto. }
  cbn [first_visits fst]. case_decide as Hq.
  - split; [done|]. intros p Hp. destruct (Hall' p Hp). tauto.
  - rewrite fmap_cons. cbn [fst]. split.
    + apply NoDup_cons. split; [|done].
      intros Hin. destruct (Hall' q Hin). tauto.
    + intros p [->|Hp]%elem_of_cons.
      * split_and!; [tauto..|]. intros Hne [Heq|Hin]%elem_of_cons.
        -- destruct q as [x y]. simpl in *. congruence.
        -- destruct (Hall' _ Hin) as (_ & _ & _ & Hsw & _).
           destruct q as [x y]. by simpl in *.
      * destruct (Hall' p Hp) as (H1 & H2 & H3 & H4 & H5).
        split_and!; [done..|]. intros Hne [Heq|Hin]%elem_of_cons; [done|].
        by apply H5.
Qed.

Lemma couples_bound (ks : list K) (P : list (K * K)) :
  NoDup P →
  (∀ p, p ∈ P → p.1 ≠ p.2 → prod_swap p ∉ P) →
  (∀ p, p ∈ P → p.1 ∈ ks ∧ p.2 ∈ ks) →
  2 * length P ≤ length ks * (length ks + 1).
Proof.
  intros Hnd Hsw Hks.
  pose proof (filter_app_complement (λ p : K * K, p.1 ≠ p.2) P) as Hperm.
  apply Permutation_length in Hperm. rewrite length_app in Hperm.
  set (D := filter (λ p : K * K, p.1 ≠ p.2) P) in *.
  set (S := filter (λ p : K * K, ¬ p.1 ≠ p.2) P) in *.
  assert (HD : length (P ++ (prod_swap <$> D)) ≤ length (list_prod ks ks)).
  { apply submseteq_length, NoDup_submseteq.
    - apply NoDup_app. split_and!; [done| |].
      + intros x Hx [p [-> Hp]]%list_elem_of_fmap.
        apply list_elem_of_filter in Hp as [Hne Hp].
        by apply (Hsw p Hp Hne).
      + apply NoDup_fmap_2_strong; [|by apply NoDup_filter].
        intros [x y] [x' y'] _ _ [= -> ->]. done.
    - intros [x y] Hin. apply list_elem_of_In, in_prod_iff.
      rewrite <-!list_elem_of_In.
      apply elem_of_app in Hin as [Hin|[p [Heq Hp]]%list_elem_of_fmap].
      + apply (Hks _ Hin).
      + apply list_elem_of_filter in Hp as [_ Hp].
        destruct p as [x' y']. simpl in Heq. simplify_eq.
        destruct (Hks _ Hp). done. }
  assert (HS : length S.*1 ≤ length ks).
  { apply submseteq_length, NoDup_submseteq.
    - apply NoDup_fmap_2_strong; [|by apply NoDup_filter].
      intros [x y] [x' y'] [Hx _]%list_elem_of_filter
        [Hy _]%list_elem_of_filter Heq.
      simpl in *. apply dec_stable in Hx, Hy. congruence.
    - intros x [p [-> Hp]]%list_elem_of_fmap.
      apply list_elem_of_filter in Hp as [_ Hp]. by apply Hks. }
  rewrite length_app, length_fmap in HD. rewrite length_fmap in HS.
  rewrite length_prod in HD. lia.
Qed.

Lemma entries_bound s :
  Inv s →
  2 * length (first_visits [] (flat s)) ≤ length s * (length s + 1).
Proof.
  intros Hs. rewrite <-(length_fmap fst (first_visits _ _)).
  rewrite <-(length_fmap fst s).
  destruct (first_visits_distinct [] (flat s)) as [Hnd Hall].
  apply couples_bound; [done|intros p Hp; by apply Hall|].
  intros [a b] [[p v] [[= <-] Hin]]%list_elem_of_fmap.
  apply first_visits_elem, (flat_get2 _ _ _ _ Hs) in Hin.
  pose proof (inv_sym _ Hs _ _ _ Hin) as Hin'.
  simpl. split; apply get_is_Some_keys.
  - unfold get2 in Hin. destruct (JsMap.get a s); [eauto|done].
  - unfold get2 in Hin'. destruct (JsMap.get b s); [eauto|done].
Qed.
(** *** Overwriting a couple keeps the shape of the store *)

Lemma skel_set k m m' s :
  JsMap.get k s = Some m → JsMap.keys m' = JsMap.keys m →
  skel (JsMap.set k m' s) = skel s.
Proof.
  intros Hk Hm. unfold skel.
  induction s as [|[k0 m0] s IH]; [done|]. simpl in *.
  case_decide; csimpl.
  - simplify_eq. by rewrite Hm.
  - f_equal. by apply IH.
Qed.

Lemma skel_upsert k k' v s :
  is_Some (get2 k k' s) → skel (upsert k k' v s) = skel s.
Proof.
  intros [w Hw]. unfold get2 in Hw. unfold upsert, iterated.
  destruct (JsMap.get k s) as [m|] eqn:Hk; [|done]. simpl in *.
  apply (skel_set k m); [done|].
  rewrite keys_set. replace (JsMap.has k' m) with true; [done|].
  symmetry. apply has_true. eauto.
Qed.

Lemma skel_set_again a b v1 v2 s :
  skel (exec (set b a v2) (exec (set a b v1) s)) = skel (exec (set a b v1) s).
Proof.
  set (s1 := exec (set a b v1) s).
  assert (H1 : get2 b a s1 = Some v1).
  { unfold s1. rewrite get2_set. by rewrite decide_True by tauto. }
  assert (H2 : get2 a b s1 = Some v1).
  { unfold s1. rewrite get2_set. by rewrite decide_True by tauto. }
  unfold exec at 1. rewrite set_run. simpl.
  rewrite !skel_upsert; [done|by rewrite H1|].
  rewrite get2_upsert, H2. by case_decide.
Qed.

Lemma row_keys k m : (row k m).*1 = (λ x, (k, x)) <$> JsMap.keys m.
Proof.
  unfold row, JsMap.keys. rewrite <-!list_fmap_compose.
  by apply list_fmap_ext.
Qed.

Lemma flat_skel s s' : skel s = skel s' → (flat s).*1 = (flat s').*1.
Proof.
  unfold skel, flat. revert s'.
  induction s as [|[k m] s IH]; intros [|[k' m'] s']; try done.
  rewrite !fmap_cons, !bind_cons, !fmap_app. intros [= -> Hm Hs].
  simpl. rewrite !row_keys, Hm. f_equal. by apply IH.
Qed.

Lemma first_visits_keys seen (l l' : list entry) :
  l.*1 = l'.*1 → (first_visits seen l).*1 = (first_visits seen l').*1.
Proof.
  revert seen l'.
  induction l as [|[p w] l IH]; intros seen [|[p' w'] l']; try done.
  rewrite !fmap_cons. intros [= -> Hl]. cbn [first_visits fst].
  case_decide; rewrite ?fmap_cons; [|f_equal]; by apply IH.
Qed.

Lemma entries_skel s s' :
  skel s = skel s' →
  (first_visits [] (flat s)).*1 = (first_visits [] (flat s')).*1.
Proof. intros Hs. by apply first_visits_keys, flat_skel. Qed.
(** *** When [delete] and [deleteAllFrom] throw *)

Lemma delete_normal k1 k2 s :
  Inv s → k1 ≠ k2 → eval (delete k1 k2) s = Normal tt.
Proof.
  intros Hs Hne. unfold eval. rewrite delete_run.
  destruct (JsMap.has k2 (iterated k1 s)) eqn:Hc; [|done]. simpl.
  apply has_iterated_get2 in Hc as [v Hv]. apply (inv_sym _ Hs) in Hv.
  rewrite get_half, decide_False by done.
  unfold get2 in Hv. by destruct (JsMap.get k2 s).
Qed.

Lemma delete_only_entry k (m : JsMap K T) :
  NoDup (JsMap.keys m) → JsMap.has k m = true → JsMap.delete k m = [] →
  ∃ v, m = [(k, v)].
Proof.
  intros Hnd Hh Hd. destruct m as [|[k0 v0] m]; [done|].
  unfold JsMap.delete in Hd. rewrite filter_cons in Hd. simpl in Hd.
  destruct (decide (k0 ≠ k)) as [?|Hk0%dec_stable]; [done|]. subst k0.
  exists v0. f_equal. destruct m as [|[k1 v1] m]; [done|].
  rewrite filter_cons in Hd. simpl in Hd.
  destruct (decide (k1 ≠ k)) as [?|Hk1%dec_stable]; [done|]. subst k1.
  unfold JsMap.keys in Hnd. rewrite !fmap_cons in Hnd. simpl in Hnd.
  apply NoDup_cons in Hnd as [Hnin _]. destruct Hnin. left.
Qed.

Lemma delete_self_throws k s :
  Inv s →
  (eval (delete k k) s = Throw ↔ ∃ v, JsMap.get k s = Some [(k, v)]).
Proof.
  intros Hs. unfold eval. rewrite delete_run, get_half, decide_True by done.
  unfold iterated. split.
  - destruct (JsMap.get k s) as [m|] eqn:Hk; simpl; [|done].
    destruct (JsMap.has k m) eqn:Hh; [|done]. simpl.
    case_decide as Hsz; [|done]. intros _.
    apply nil_length_inv in Hsz.
    destruct (delete_only_entry k m) as [v ->]; [|done..|eauto].
    by apply (inv_inner _ Hs k m).
  - intros [v ->]. simpl. unfold JsMap.has, JsMap.delete. simpl.
    rewrite decide_True by done. rewrite filter_cons. simpl.
    by destruct (decide (k ≠ k)).
Qed.

Lemma loop_normal k pending s :
  Inv s → get2 k k s = None →
  eval (deleteAllFrom_loop k pending) s = Normal tt.
Proof.
  revert s. induction pending as [|key pending IH]; intros s Hs Hkk; [done|].
  unfold eval. rewrite loop_cons.
  destruct (decide (key = k)) as [->|Hne].
  - assert (Hf : JsMap.has k (iterated k s) = false).
    { apply has_false. by rewrite <-get2_iterated. }
    rewrite delete_run, Hf. by apply IH.
  - pose proof (delete_normal k key s Hs) as Hn.
    pose proof (Inv_delete k key s Hs) as Hs'.
    pose proof (get2_delete_other k k k key s) as Hkk'.
    unfold eval, exec in *.
    destruct (delete k key s) as [[[]|] s']; simpl in *.
    + apply IH; [done|]. rewrite Hkk'; [done|naive_solver..].
    + by ospecialize (Hn _).
Qed.

Lemma deleteAllFrom_normal k s :
  Inv s → get2 k k s = None → eval (deleteAllFrom k) s = Normal tt.
Proof.
  intros Hs Hkk. unfold eval. rewrite deleteAllFrom_run.
  by apply loop_normal.
Qed.

(** *** The constructor *)

Lemma reachable_new_from (it : list entry) : reachable (new it).
Proof.
  unfold new. generalize (reachable_new (K:=K) (T:=T)).
  generalize ([] : rkm).
  induction it as [|e it IH]; intros s Hs; [done|].
  unfold exec. cbn [for_each]. rewrite bind_run, set_run.
  apply IH. pose proof (reachable_set s e.1.1 e.1.2 e.2 Hs) as Hr.
  unfold exec in Hr. by rewrite set_run in Hr.
Qed.

(** *** [set] followed by [delete] *)

Lemma half_upsert_cancel k k' v s :
  get2 k k' s = None → JsMap.get k s ≠ Some [] →
  half k k' (upsert k k' v s) = s.
Proof.
  intros Hkk' Hne. rewrite get2_iterated in Hkk'.
  unfold half. rewrite get_upsert, decide_True by done.
  rewrite delete_set_new by done. unfold upsert, iterated in *.
  destruct (JsMap.get k s) as [m|] eqn:Hk; simpl in *.
  - rewrite decide_False.
    + by rewrite set_set, set_id.
    + intros Hsz. apply nil_length_inv in Hsz. by subst.
  - by rewrite !delete_set, delete_absent.
Qed.

Lemma half_set_ne k k' c x s :
  k ≠ c → half k k' (JsMap.set c x s) = JsMap.set c x (half k k' s).
Proof.
  intros Hne. unfold half. rewrite get_set, decide_False by done.
  destruct (JsMap.get k s) as [m|] eqn:Hk; [|done].
  assert (Hh : JsMap.has k s = true) by (apply has_true; eauto).
  rewrite (set_set_ne k c) by done.
  case_decide; [|done]. by rewrite delete_set_ne.
Qed.

Lemma half_absent k k' s :
  get2 k k' s = None → JsMap.get k s ≠ Some [] → half k k' s = s.
Proof.
  intros Hkk' Hne. rewrite get2_iterated in Hkk'. unfold half, iterated in *.
  destruct (JsMap.get k s) as [m|] eqn:Hk; simpl in *; [|done].
  rewrite delete_absent by done. rewrite decide_False.
  - by apply set_id.
  - intros Hsz. apply nil_length_inv in Hsz. by subst.
Qed.

Lemma upsert_upsert k k' v s :
  upsert k k' v (upsert k k' v s) = upsert k k' v s.
Proof.
  unfold upsert at 1. unfold iterated at 1.
  rewrite get_upsert, decide_True by done. simpl.
  rewrite set_set. unfold upsert. by rewrite set_set.
Qed.

Lemma set_delete_cancel k1 k2 v s :
  Inv s → get2 k1 k2 s = None →
  exec (delete k1 k2) (exec (set k1 k2 v) s) = s.
Proof.
  intros Hs H12.
  assert (H21 : get2 k2 k1 s = None) by (by rewrite get2_sym).
  assert (Hne : ∀ k, JsMap.get k s ≠ Some []).
  { intros k Hk. by destruct (inv_inner _ Hs k [] Hk). }
  rewrite exec_delete.
  replace (JsMap.has k2 (iterated k1 (exec (set k1 k2 v) s))) with true.
  2:{ symmetry. apply has_iterated_get2. rewrite get2_set.
      rewrite decide_True by tauto. eauto. }
  unfold exec. rewrite set_run. simpl.
  destruct (decide (k1 = k2)) as [->|Hk].
  - rewrite upsert_upsert, half_upsert_cancel by done.
    by apply half_absent.
  - unfold upsert at 1. rewrite half_set_ne by done.
    rewrite half_upsert_cancel by done.
    unfold iterated at 1. rewrite get_upsert, decide_False by done.
    by apply half_upsert_cancel.
Qed.

(** *** The order of the top-level keys *)

Lemma keys_exec_set k1 k2 v s :
  JsMap.keys (exec (set k1 k2 v) s) =
  JsMap.keys s ++ (if JsMap.has k1 s then [] else [k1])
               ++ (if JsMap.has k2 s || bool_decide (k2 = k1) then []
                   else [k2]).
Proof.
  unfold exec. rewrite set_run. simpl. unfold upsert at 1.
  rewrite keys_set.
  assert (Hks : JsMap.keys (upsert k1 k2 v s) =
                if JsMap.has k1 s then JsMap.keys s else JsMap.keys s ++ [k1]).
  { unfold upsert. apply keys_set. }
  assert (Hh : JsMap.has k2 (upsert k1 k2 v s) =
               JsMap.has k2 s || bool_decide (k2 = k1)).
  { unfold JsMap.has at 1. rewrite get_upsert.
    destruct (decide (k2 = k1)) as [->|Hk].
    - rewrite bool_decide_eq_true_2 by done. by rewrite orb_true_r.
    - rewrite bool_decide_eq_false_2 by done. by rewrite orb_false_r. }
  rewrite Hh, Hks.
  destruct (JsMap.has k1 s), (JsMap.has k2 s || bool_decide (k2 = k1));
    by rewrite ?app_nil_r, <-?app_assoc.
Qed.

Lemma filter_all {A} (P : A → Prop) `{!∀ x, Decision (P x)} (l : list A) :
  (∀ x, x ∈ l → P x) → filter P l = l.
Proof.
  induction l as [|x l IH]; intros Hall; [done|].
  rewrite filter_cons_True by (apply Hall; left).
  f_equal. apply IH. intros y Hy. apply Hall. by right.
Qed.

Lemma filter_has_keys s :
  filter (λ c, JsMap.has c s = true) (JsMap.keys s) = JsMap.keys s.
Proof.
  apply filter_all. intros c Hc. by apply has_true, get_is_Some_keys.
Qed.

Lemma Kept_refl s : Kept s s.
Proof. split; [by rewrite filter_has_keys|done]. Qed.

Lemma Kept_trans s1 s2 s3 : Kept s1 s2 → Kept s2 s3 → Kept s1 s3.
Proof.
  intros [Hk12 Hh12] [Hk23 Hh23]. split; [|by auto].
  rewrite Hk23, Hk12. by apply list_filter_filter_l.
Qed.

Lemma Kept_half k k' s : Kept s (half k k' s).
Proof.
  unfold half. destruct (JsMap.get k s) as [m|] eqn:Hk; [|apply Kept_refl].
  assert (Hh : JsMap.has k s = true) by (apply has_true; eauto).
  case_decide.
  - split.
    + rewrite keys_delete, keys_set, Hh.
      rewrite <-(filter_has_keys s) at 1. rewrite list_filter_filter.
      apply list_filter_iff. intros c.
      rewrite !has_true, get_delete, get_set.
      repeat case_decide; naive_solver.
    + intros c. rewrite !has_true, get_delete, get_set.
      repeat case_decide; naive_solver.
  - split.
    + rewrite keys_set, Hh. rewrite <-(filter_has_keys s) at 1.
      apply list_filter_iff. intros c. rewrite !has_true, get_set.
      case_decide; naive_solver.
    + intros c. rewrite !has_true, get_set. case_decide; naive_solver.
Qed.

Lemma Kept_delete k1 k2 s : Kept s (exec (delete k1 k2) s).
Proof.
  rewrite exec_delete. case_match; [|apply Kept_refl].
  eapply Kept_trans; apply Kept_half.
Qed.

Lemma Kept_deleteAllFrom k s : Kept s (exec (deleteAllFrom k) s).
Proof.
  unfold exec. rewrite deleteAllFrom_run.
  apply (loop_preserves (Kept s)); [|apply Kept_refl].
  intros key s' Hs'. eapply Kept_trans; [done|apply Kept_delete].
Qed.

(** *** [deleteAllFrom] and the other couples *)

Lemma get2_deleteAllFrom_other c d k s :
  c ≠ k → d ≠ k → get2 c d (exec (deleteAllFrom k) s) = get2 c d s.
Proof.
  intros Hc Hd. unfold exec. rewrite deleteAllFrom_run.
  apply (loop_preserves (λ s', get2 c d s' = get2 c d s)); [|done].
  intros key s' <-. apply get2_delete_other; naive_solver.
Qed.

(** *** The constructor and [get] *)

Lemma exec_for_each_cons {S X} (f : X → M S unit) x l (st : S) :
  eval (f x) st = Normal tt →
  exec (for_each (x :: l) f) st = exec (for_each l f) (exec (f x) st).
Proof.
  unfold eval, exec. cbn [for_each]. rewrite bind_run.
  by destruct (f x st) as [[[]|] st'].
Qed.

Lemma last_value_cons a b (e : entry) it :
  last_value a b (e :: it) =
  match last_value a b it with
  | Some v => Some v
  | None => if decide (same_couple a b e) then Some e.2 else None
  end.
Proof.
  unfold last_value. rewrite filter_cons. case_decide.
  - rewrite last_cons. by destruct (last _).
  - by destruct (last _).
Qed.

Lemma get2_for_each_set a b (it : list entry) s :
  get2 a b (exec (for_each it (λ e, set e.1.1 e.1.2 e.2)) s) =
  match last_value a b it with Some v => Some v | None => get2 a b s end.
Proof.
  revert s. induction it as [|[[x y] w] it IH]; intros s; [done|].
  rewrite exec_for_each_cons by (unfold eval; by rewrite set_run).
  rewrite IH, last_value_cons.
  destruct (last_value a b it); [done|]. simpl.
  rewrite get2_set. unfold same_couple. simpl.
  repeat case_decide; naive_solver.
Qed.

(** *** When [deleteAllFrom] throws *)

Lemma iterated_exec_delete k key w m s :
  NoDup (JsMap.keys (iterated k s)) → iterated k s = (key, w) :: m →
  iterated k (exec (delete k key) s) = m.
Proof.
  intros Hnd Hm. rewrite Hm in Hnd.
  unfold JsMap.keys in Hnd. rewrite fmap_cons in Hnd. simpl in Hnd.
  apply NoDup_cons in Hnd as [Hnin _].
  assert (Hd : JsMap.delete key m = m).
  { apply delete_absent. apply eq_None_not_Some.
    by rewrite get_is_Some_keys. }
  assert (Hd' : JsMap.delete key (iterated k s) = m).
  { rewrite Hm. unfold JsMap.delete. rewrite filter_cons. simpl.
    by rewrite decide_False by (by intros ?). }
  rewrite exec_delete.
  replace (JsMap.has key (iterated k s)) with true.
  2:{ rewrite Hm. unfold JsMap.has. simpl. by rewrite decide_True. }
  destruct (decide (k = key)) as [->|Hne].
  - rewrite !iterated_half, !decide_True by done. by rewrite Hd', Hd.
  - rewrite iterated_half, decide_False by done.
    by rewrite iterated_half, decide_True.
Qed.

Lemma loop_throws k s :
  Inv s →
  (eval (deleteAllFrom_loop k (JsMap.keys (iterated k s))) s = Throw ↔
   last (JsMap.keys (iterated k s)) = Some k).
Proof.
  remember (iterated k s) as m eqn:Hm. revert s Hm.
  induction m as [|[key w] m IH]; intros s Hm Hs; [done|].
  pose proof (NoDup_iterated k s Hs) as Hnd.
  pose proof (iterated_exec_delete k key w m s Hnd (eq_sym Hm)) as Hm'.
  pose proof (Inv_delete k key s Hs) as Hs'.
  specialize (IH (exec (delete k key) s) (eq_sym Hm') Hs').
  assert (Hk : JsMap.get k s = Some ((key, w) :: m)).
  { unfold iterated in Hm. by destruct (JsMap.get k s); simplify_eq/=. }
  unfold JsMap.keys in *. rewrite fmap_cons. cbn [fst].
  unfold eval in *. rewrite loop_cons.
  destruct (decide (key = k)) as [->|Hne].
  - pose proof (delete_self_throws k s Hs) as Hself. unfold eval in Hself.
    destruct m as [|[key' w'] m].
    + destruct (delete k k s) as [[[]|] s'] eqn:Hd; simpl in *; [|done].
      destruct Hself as [_ Hself]. by ospecialize (Hself _); [eauto|].
    + rewrite fmap_cons, last_cons_cons. rewrite fmap_cons in IH.
      unfold exec in IH.
      destruct (delete k k s) as [[[]|] s'] eqn:Hd; simpl in *; [done|].
      destruct Hself as [[v Hv] _]; [done|]. congruence.
  - pose proof (delete_normal k key s Hs) as Hn. unfold eval, exec in *.
    destruct (delete k key s) as [[[]|] s'] eqn:Hd; simpl in *.
    + rewrite IH. destruct m as [|[key' w'] m]; simpl.
      * split; [done|]. by intros [= ->].
      * done.
    + by ospecialize (Hn _).
Qed.

(** *** What the constructor builds *)

Lemma size_exec_set k1 k2 v s :
  length (exec (set k1 k2 v) s) ≤ length s + 2.
Proof.
  rewrite <-(length_fmap fst (exec _ _)), <-(length_fmap fst s).
  change (length (JsMap.keys (exec (set k1 k2 v) s)) ≤
          length (JsMap.keys s) + 2).
  rewrite keys_exec_set, !length_app.
  destruct (JsMap.has k1 s), (JsMap.has k2 s || bool_decide (k2 = k1));
    simpl; lia.
Qed.

Lemma size_for_each_set (it : list entry) s :
  length (exec (for_each it (λ e, set e.1.1 e.1.2 e.2)) s) ≤
  length s + 2 * length it.
Proof.
  revert s. induction it as [|e it IH]; intros s.
  { unfold exec. simpl. lia. }
  rewrite exec_for_each_cons by (unfold eval; by rewrite set_run).
  etrans; [apply IH|].
  pose proof (size_exec_set e.1.1 e.1.2 e.2 s). simpl. lia.
Qed.

Lemma couples_le (P : list (K * K)) (L : list entry) :
  NoDup P →
  (∀ p, p ∈ P → p.1 ≠ p.2 → prod_swap p ∉ P) →
  (∀ p, p ∈ P → ∃ e, e ∈ L ∧ same_couple p.1 p.2 e) →
  length P ≤ length L.
Proof.
  revert P. induction L as [|e L IH]; intros P Hnd Hsw Hcov.
  { destruct P as [|p P]; [done|].
    destruct (Hcov p) as (e & He & _); [left|]. by apply elem_of_nil in He. }
  pose proof (filter_app_complement (λ p : K * K, same_couple p.1 p.2 e) P)
    as Hperm.
  apply Permutation_length in Hperm. rewrite length_app in Hperm.
  assert (H2 : length (filter (λ p : K * K, ¬ same_couple p.1 p.2 e) P)
               ≤ length L).
  { apply IH.
    - by apply NoDup_filter.
    - intros p [_ Hp]%list_elem_of_filter Hne [_ Hq]%list_elem_of_filter.
      by apply (Hsw p).
    - intros p [Hne Hp]%list_elem_of_filter.
      destruct (Hcov p Hp) as (e' & [->|He']%elem_of_cons & Hsame);
        [done|eauto]. }
  assert (H1 : length (filter (λ p : K * K, same_couple p.1 p.2 e) P) ≤ 1).
  { pose proof (NoDup_filter (λ p : K * K, same_couple p.1 p.2 e) P Hnd)
      as Hnd1.
    assert (Hin : ∀ p, p ∈ filter (λ p : K * K, same_couple p.1 p.2 e) P →
                       same_couple p.1 p.2 e ∧ p ∈ P).
    { intros p. by rewrite list_elem_of_filter. }
    destruct (filter _ P) as [|p [|q r]]; simpl; [lia..|]. exfalso.
    destruct (Hin p) as [Hp HpP]; [left|].
    destruct (Hin q) as [Hq HqP]; [right; left|].
    apply NoDup_cons in Hnd1 as [Hpq _].
    assert (p ≠ q) by (intros ->; apply Hpq; left).
    destruct p as [x y], q as [x' y']. unfold same_couple in *. simpl in *.
    destruct Hp as [Hp|Hp], Hq as [Hq|Hq]; rewrite Hp in Hq;
      injection Hq as <- <-; try done.
    all: apply (Hsw (x, y) HpP); [simpl; congruence|done]. }
  simpl. lia.
Qed.

Lemma last_value_elem a b v (it : list entry) :
  last_value a b it = Some v → ∃ e, e ∈ it ∧ same_couple a b e.
Proof.
  unfold last_value. destruct (last _) as [e|] eqn:He; [|done].
  intros _. apply last_Some_elem_of, list_elem_of_filter in He. naive_solver.
Qed.

Lemma count_new_le (it : list entry) :
  length (first_visits [] (flat (new it))) ≤ length it.
Proof.
  pose proof (Inv_reachable _ (reachable_new_from it)) as Hs.
  rewrite <-(length_fmap fst (first_visits _ _)).
  destruct (first_visits_distinct [] (flat (new it))) as [Hnd Hall].
  apply couples_le; [done|intros p Hp; by apply Hall|].
  intros [a b] [[p v] [[= <-] Hin]]%list_elem_of_fmap.
  apply first_visits_elem, (flat_get2 _ _ _ _ Hs) in Hin.
  unfold new in Hin. rewrite get2_for_each_set in Hin.
  destruct (last_value a b it) as [v'|] eqn:Hl; [|done].
  by apply (last_value_elem a b v').
Qed.

(** *** How [set] and [delete] change the number of couples *)

Lemma entries_le s (L : list entry) :
  Inv s →
  (∀ a b v, get2 a b s = Some v → ∃ e, e ∈ L ∧ same_couple a b e) →
  length (first_visits [] (flat s)) ≤ length L.
Proof.
  intros Hs Hcov. rewrite <-(length_fmap fst (first_visits [] (flat s))).
  destruct (first_visits_distinct [] (flat s)) as [Hnd Hall].
  apply couples_le; [done|intros p Hp; by apply Hall|].
  intros [a b] [[p v] [[= <-] Hin]]%list_elem_of_fmap.
  apply first_visits_elem, (flat_get2 _ _ _ _ Hs) in Hin.
  by apply (Hcov a b v).
Qed.

Lemma entries_cover s a b v :
  get2 a b s = Some v →
  ∃ e, e ∈ first_visits [] (flat s) ∧ same_couple a b e.
Proof.
  intros Hab.
  destruct (first_visits_once a b [] (flat s)) as [e He].
  { rewrite !elem_of_nil. tauto. }
  { exists ((a, b), v). split; [by apply get2_flat|by left]. }
  exists e. apply and_comm, (list_elem_of_filter (same_couple a b)).
  rewrite He. left.
Qed.

Lemma count_support s (t : rkm) :
  Inv s →
  (∀ a b, is_Some (get2 a b s) → is_Some (get2 a b t)) →
  length (first_visits [] (flat s)) ≤ length (first_visits [] (flat t)).
Proof.
  intros Hs Hst. apply entries_le; [done|].
  intros a b v Hab. destruct (Hst a b) as [w Hw]; [eauto|].
  by apply (entries_cover t a b w).
Qed.

Lemma count_set_new k1 k2 v s :
  Inv s → get2 k1 k2 s = None →
  length (first_visits [] (flat (exec (set k1 k2 v) s))) =
  S (length (first_visits [] (flat s))).
Proof.
  intros Hs H12.
  assert (H21 : get2 k2 k1 s = None) by (by rewrite get2_sym).
  pose proof (Inv_set k1 k2 v s Hs) as Hs'.
  apply Nat.le_antisymm.
  - change (S (length (first_visits [] (flat s)))) with
      (length (((k1, k2), v) :: first_visits [] (flat s))).
    apply entries_le; [done|]. intros a b w. rewrite get2_set.
    case_decide as Hab.
    + intros _. exists ((k1, k2), v). split; [left|].
      unfold same_couple. simpl. naive_solver.
    + intros [e [He Hsame]]%entries_cover. exists e. split; [by right|done].
  - rewrite <-(length_fmap fst (first_visits [] (flat s))).
    change (S (length (first_visits [] (flat s)).*1)) with
      (length ((k1, k2) :: (first_visits [] (flat s)).*1)).
    destruct (first_visits_distinct [] (flat s)) as [Hnd Hall].
    assert (Hstored : ∀ p, p ∈ (first_visits [] (flat s)).*1 →
                           is_Some (get2 p.1 p.2 s)).
    { intros [a b] [[p w] [[= <-] Hin]]%list_elem_of_fmap.
      apply first_visits_elem, (flat_get2 _ _ _ _ Hs) in Hin. eauto. }
    apply couples_le.
    + apply NoDup_cons. split; [|done].
      intros [w Hw]%Hstored. simpl in Hw. congruence.
    + intros p [->|Hp]%elem_of_cons Hne [Heq|Hin]%elem_of_cons.
      * simpl in *. congruence.
      * apply Hstored in Hin as [w Hw]. simpl in Hw. congruence.
      * apply Hstored in Hp as [w Hw]. destruct p as [a b].
        simpl in *. simplify_eq; congruence.
      * by apply (Hall p Hp).
    + intros p [->|Hp]%elem_of_cons.
      * apply (entries_cover _ _ _ v). simpl. rewrite get2_set.
        by rewrite decide_True by tauto.
      * pose proof (Hstored p Hp) as [w Hw].
        apply (entries_cover _ _ _ w). rewrite get2_set.
        rewrite decide_False; [done|].
        intros [[H1 H2]|[H1 H2]]; rewrite H1, H2 in Hw; congruence.
Qed.

Lemma count_delete k1 k2 s :
  Inv s → is_Some (get2 k1 k2 s) →
  length (first_visits [] (flat s)) =
  S (length (first_visits [] (flat (exec (delete k1 k2) s)))).
Proof.
  intros Hs [v H12].
  pose proof (inv_sym _ Hs _ _ _ H12) as H21.
  pose proof (Inv_delete k1 k2 s Hs) as Ht.
  pose proof (get2_delete_same k1 k2 s) as Hgone.
  set (t := exec (delete k1 k2) s) in *.
  rewrite <-(count_set_new k1 k2 v t Ht Hgone).
  pose proof (Inv_set k1 k2 v t Ht) as Hu.
  assert (Hsu : ∀ a b, is_Some (get2 a b s) ↔
                       is_Some (get2 a b (exec (set k1 k2 v) t))).
  { intros a b. rewrite get2_set. case_decide as Hab.
    - destruct Hab as [[-> ->]|[-> ->]]; split; eauto.
    - unfold t. rewrite get2_delete_other by tauto. done. }
  apply Nat.le_antisymm; apply count_support; try done;
    intros a b; apply Hsu.
Qed.

Lemma exec_loop_cons k key pending s :
  exec (deleteAllFrom_loop k (key :: pending)) s =
  match eval (delete k key) s with
  | Normal _ => exec (deleteAllFrom_loop k pending) (exec (delete k key) s)
  | Throw => exec (delete k key) s
  end.
Proof.
  unfold exec, eval. rewrite loop_cons.
  by destruct (delete k key s) as [[[]|] s'].
Qed.

Lemma count_loop k s :
  Inv s →
  length (first_visits [] (flat s)) =
  length (first_visits [] (flat
    (exec (deleteAllFrom_loop k (JsMap.keys (iterated k s))) s)))
  + length (iterated k s).
Proof.
  remember (iterated k s) as m eqn:Hm. revert s Hm.
  induction m as [|[key w] m IH]; intros s Hm Hs.
  { change (exec (deleteAllFrom_loop k (JsMap.keys [])) s) with s.
    simpl. lia. }
  pose proof (NoDup_iterated k s Hs) as Hnd.
  pose proof (iterated_exec_delete k key w m s Hnd (eq_sym Hm)) as Hm'.
  pose proof (Inv_delete k key s Hs) as Hs'.
  specialize (IH (exec (delete k key) s) (eq_sym Hm') Hs').
  assert (Hc : is_Some (get2 k key s)).
  { rewrite get2_iterated, <-Hm. simpl. rewrite decide_True by done. eauto. }
  rewrite (count_delete k key s Hs Hc).
  unfold JsMap.keys in *. rewrite fmap_cons. cbn [fst length].
  rewrite exec_loop_cons.
  destruct (eval (delete k key) s) as [[]|] eqn:Hd; [lia|].
  destruct (delete_throw_self k key s Hs Hd) as [_ Hnil].
  rewrite Hnil in Hm'. subst m. simpl. lia.
Qed.

(** *** Inner maps *)

Lemma get_exec_set_other c k1 k2 v s :
  c ≠ k1 → c ≠ k2 →
  JsMap.get c (exec (set k1 k2 v) s) = JsMap.get c s.
Proof.
  intros H1 H2. unfold exec. rewrite set_run. simpl.
  by rewrite !get_upsert, !decide_False.
Qed.

Lemma get_exec_delete_other c k1 k2 s :
  c ≠ k1 → c ≠ k2 →
  JsMap.get c (exec (delete k1 k2) s) = JsMap.get c s.
Proof.
  intros H1 H2. rewrite exec_delete. case_match; [|done].
  by rewrite !get_half, !decide_False.
Qed.

Lemma skel_exec_set k1 k2 v s :
  Inv s → is_Some (get2 k1 k2 s) →
  skel (exec (set k1 k2 v) s) = skel s.
Proof.
  intros Hs [w H12]. pose proof (inv_sym _ Hs _ _ _ H12) as H21.
  unfold exec. rewrite set_run. simpl.
  rewrite !skel_upsert; [done|eauto|].
  rewrite get2_upsert. case_decide; eauto.
Qed.

End facts.
End ReversibleKeyMapFacts.

(** * The properties of the specification *)

Import ReversibleKeyMap ReversibleKeyMapSpec JsMapFacts ReversibleKeyMapFacts.

Section properties.
Context {K T : Type} `{EqDecision K}.
Implicit Types (s : JsMap K (JsMap K T)).

Lemma eval_get a b s : eval (get a b) s = Normal (get2 a b s).
Proof. unfold eval. by rewrite get_run. Qed.

Lemma eval_set k1 k2 (v : T) s : eval (set k1 k2 v) s = Normal tt.
Proof. unfold eval. by rewrite set_run. Qed.

Lemma eval_entries s : eval entries s = Normal (first_visits [] (flat s)).
Proof. unfold eval. by rewrite entries_run. Qed.

Lemma eval_keysCouples s :
  eval keysCouples s = Normal (first_visits [] (flat s)).*1.
Proof.
  unfold eval, keysCouples, iterator. by rewrite !bind_run, entries_run.
Qed.

Lemma eval_count s : eval count s = Normal (length (first_visits [] (flat s))).
Proof.
  unfold eval, count, values, iterator. rewrite !bind_run, entries_run. simpl.
  by rewrite length_fmap.
Qed.

Lemma entries_stored s a b (v : T) :
  Inv s → ((a, b), v) ∈ first_visits [] (flat s) → get2 a b s = Some v.
Proof. intros Hs He%first_visits_elem. by apply flat_get2. Qed.

Lemma entries_once s a b (v : T) :
  Inv s → get2 a b s = Some v →
  ∃ e, filter (same_couple a b) (first_visits [] (flat s)) = [e] ∧ e.2 = v.
Proof.
  intros Hs Hab.
  destruct (first_visits_once a b [] (flat s)) as [e He].
  { rewrite !elem_of_nil. tauto. }
  { exists ((a, b), v). split; [by apply get2_flat|by left]. }
  exists e. split; [done|].
  assert (Hin : e ∈ filter (same_couple a b) (first_visits [] (flat s))).
  { rewrite He. left. }
  apply list_elem_of_filter in Hin as [Hsame Hin].
  destruct e as [[x y] w]. apply (entries_stored _ _ _ _ Hs) in Hin.
  simpl. destruct Hsame as [[= -> ->]|[= -> ->]].
  - congruence.
  - apply (inv_sym _ Hs) in Hin. congruence.
Qed.

Lemma keys_covered s k :
  Inv s → k ∈ JsMap.keys s →
  k ∈ (first_visits [] (flat s)).*1.*1 ++ (first_visits [] (flat s)).*1.*2.
Proof.
  intros Hs Hk. apply get_is_Some_keys, has_true in Hk.
  apply (has_get2 _ _ Hs) in Hk as (d & v & Hd).
  apply (entries_once _ _ _ _ Hs) in Hd as (e & He & _).
  assert (Hin : e ∈ filter (same_couple k d) (first_visits [] (flat s))).
  { rewrite He. left. }
  apply list_elem_of_filter in Hin as [Hsame Hin].
  apply elem_of_app. destruct e as [[x y] w].
  destruct Hsame as [[= -> ->]|[= -> ->]]; [left|right].
  - apply list_elem_of_fmap. exists (k, d). split; [done|].
    apply list_elem_of_fmap. by exists ((k, d), w).
  - apply list_elem_of_fmap. exists (d, k). split; [done|].
    apply list_elem_of_fmap. by exists ((d, k), w).
Qed.

(** C7. Whatever the store, [set k1 k2 v] ends normally and right
    after it both [get k1 k2] and [get k2 k1] return [v]. *)
Theorem set_get_roundtrip s (k1 k2 : K) (v : T) :
  eval (set k1 k2 v) s = Normal tt ∧
  eval (get k1 k2) (exec (set k1 k2 v) s) = Normal (Some v) ∧
  eval (get k2 k1) (exec (set k1 k2 v) s) = Normal (Some v).
Proof.
  rewrite eval_set, !eval_get, !get2_set.
  rewrite !decide_True by tauto. done.
Qed.

(** C10. For a couple [{c, d}] other than [{k1, k2}], [get c d]
    returns the same result before and after [set k1 k2 v], and before
    and after [delete k1 k2]. *)
Theorem set_delete_frame s (k1 k2 c d : K) (v : T) :
  ¬ ((c = k1 ∧ d = k2) ∨ (c = k2 ∧ d = k1)) →
  eval (get c d) (exec (set k1 k2 v) s) = eval (get c d) s ∧
  eval (get c d) (exec (delete k1 k2) s) = eval (get c d) s.
Proof.
  intros Hne. rewrite !eval_get. split; f_equal.
  - rewrite get2_set. by rewrite decide_False.
  - apply get2_delete_other; tauto.
Qed.

(** C3. In a reachable store, an entry [a → (b → v)] of the primary
    index comes with the entry [b → (a → v)], and so [get a b] and
    [get b a] return the same result; [get] itself looks up one
    direction only. *)
Theorem symmetry_invariant s :
  reachable s →
  (∀ a b v m, JsMap.get a s = Some m → JsMap.get b m = Some v →
     ∃ m', JsMap.get b s = Some m' ∧ JsMap.get a m' = Some v) ∧
  (∀ a b, eval (get a b) s = eval (get b a) s).
Proof.
  intros Hs%Inv_reachable. split.
  - intros a b v m Ha Hb.
    assert (Hab : get2 a b s = Some v) by (unfold get2; by rewrite Ha).
    apply (inv_sym _ Hs) in Hab. unfold get2 in Hab.
    destruct (JsMap.get b s) as [m'|]; [eauto|done].
  - intros a b. rewrite !eval_get. f_equal. by apply get2_sym.
Qed.

(** C4. In a reachable store a key is a top-level entry exactly when
    it takes part in some couple, and the inner map of a top-level
    entry is never empty.  When [(k1, k2)] is the only couple of [k1],
    [has k1] is false in the store that [delete k1 k2] leaves. *)
Theorem no_orphan_invariant s :
  reachable s →
  (∀ k, eval (has k) s = Normal true ↔
        ∃ d v, eval (get k d) s = Normal (Some v)) ∧
  (∀ k m, eval (getAllFrom k) s = Normal (Some m) → m ≠ []) ∧
  (∀ k1 k2,
     eval (hasCouple k1 k2) s = Normal true →
     (∀ d, d ≠ k2 → eval (hasCouple k1 d) s = Normal false) →
     eval (has k1) (exec (delete k1 k2) s) = Normal false).
Proof.
  intros Hs%Inv_reachable. split_and!.
  - intros k. unfold has, read, eval. simpl.
    split.
    + intros [= Hk]. apply (has_get2 _ _ Hs) in Hk as (d & v & Hd).
      exists d, v. by rewrite get_run, Hd.
    + intros (d & v & Hd). rewrite get_run in Hd. simpl in Hd.
      f_equal. apply (has_get2 _ _ Hs). exists d, v. congruence.
  - intros k m [= Hk]. by apply (inv_inner _ Hs k m).
  - intros k1 k2 _ Honly. unfold has, read, eval. simpl. f_equal.
    apply has_false.
    assert (Hdel : JsMap.delete k2 (iterated k1 s) = []).
    { apply get_None_all_delete. intros d Hd. specialize (Honly d Hd).
      unfold eval in Honly. rewrite hasCouple_run in Honly.
      simpl in Honly. apply has_false. congruence. }
    pose proof (Inv_delete k1 k2 s Hs) as Hs'.
    destruct (JsMap.get k1 (exec (delete k1 k2) s)) as [m|] eqn:Hm; [|done].
    destruct (inv_inner _ Hs' k1 m Hm) as [_ Hne].
    pose proof (iterated_delete k1 k2 s) as Hsub.
    unfold iterated in Hsub at 1. rewrite Hm in Hsub. simpl in Hsub.
    rewrite <-keys_delete, Hdel in Hsub.
    destruct m as [|[d v] m]; [done|].
    specialize (Hsub d). ospecialize (Hsub _); [left|].
    by apply elem_of_nil in Hsub.
Qed.

(** C9. [size] is the number of top-level keys: 0 for a new map, 2
    after one [set] on two different keys, 1 after one [set] on a key
    coupled with itself; in a reachable store the top-level keys are
    pairwise different and are the keys that take part in a couple. *)
Theorem size_counts_keys :
  eval size (@new K T _ []) = Normal 0 ∧
  (∀ (a b : K) (v : T), a ≠ b →
     eval size (exec (set a b v) (new [])) = Normal 2) ∧
  (∀ (a : K) (v : T), eval size (exec (set a a v) (new [])) = Normal 1) ∧
  (∀ s, reachable s →
     ∃ ks, eval keys s = Normal ks ∧ NoDup ks ∧
           eval size s = Normal (length ks) ∧
           ∀ k, k ∈ ks ↔ ∃ d v, eval (get k d) s = Normal (Some v)).
Proof.
  split_and!.
  - done.
  - intros a b v Hab. unfold exec. rewrite set_run. simpl.
    unfold upsert, iterated. simpl. by rewrite !decide_False by done.
  - intros a v. unfold exec. rewrite set_run. simpl.
    unfold upsert, iterated. simpl. by rewrite !decide_True by done.
  - intros s Hs%Inv_reachable. exists (JsMap.keys s). split_and!.
    + done.
    + apply Hs.
    + unfold size, read, eval, JsMap.size, JsMap.keys. simpl.
      by rewrite length_fmap.
    + intros k. rewrite <-get_is_Some_keys, <-has_true, (has_get2 _ _ Hs).
      split; intros (d & v & Hd); exists d, v.
      * by rewrite eval_get, Hd.
      * rewrite eval_get in Hd. congruence.
Qed.

(** C6. In a reachable store, the loop of [deleteAllFrom k] over the
    live inner map does what a loop over a copy of the co-keys taken
    beforehand does; in the store it leaves, [has k] is false and no
    item of [entries] mentions [k]; and it changes nothing when [k]
    is not a top-level key. *)
Theorem deleteAllFrom_removes_key s k :
  reachable s →
  deleteAllFrom k s = deleteAllFrom_snapshot k s ∧
  eval (has k) (exec (deleteAllFrom k) s) = Normal false ∧
  (∃ es, eval entries (exec (deleteAllFrom k) s) = Normal es ∧
         ∀ e, e ∈ es → e.1.1 ≠ k ∧ e.1.2 ≠ k) ∧
  (eval (has k) s = Normal false → deleteAllFrom k s = (Normal tt, s)).
Proof.
  intros Hs%Inv_reachable.
  pose proof (Inv_deleteAllFrom k s Hs) as Hs'.
  pose proof (deleteAllFrom_has k s Hs) as Hk.
  split_and!.
  - unfold deleteAllFrom, deleteAllFrom_snapshot.
    rewrite !bind_run. destruct (has k s) as [[[]|] s0]; [|done..].
    rewrite !bind_run. destruct (getAllFrom k s0) as [[o|] s1]; [|done].
    rewrite !bind_run. destruct (deref o s1) as [[m|] s2]; [|done].
    apply loop_snapshot.
  - unfold has, read, eval. simpl. by rewrite Hk.
  - eexists. split; [apply eval_entries|].
    intros [[a b] v] Hin. apply (entries_stored _ _ _ _ Hs') in Hin.
    apply has_false in Hk. simpl. split; intros ->.
    + unfold get2 in Hin. by rewrite Hk in Hin.
    + apply (inv_sym _ Hs') in Hin. unfold get2 in Hin. by rewrite Hk in Hin.
  - intros [= Hn]. unfold deleteAllFrom, has, read. run. by rewrite Hn.
Qed.

(** C2, amended. In a reachable store [count] is the number of items
    that draining [entries] yields, one per stored couple.  Every
    top-level key takes part in one of them, and a couple is made of
    one or two top-level keys: with [n = size], [count] lies between
    [n / 2] and [n * (n + 1) / 2]. *)
Theorem count_is_entries_length s :
  reachable s →
  ∃ es n,
    eval entries s = Normal es ∧
    eval count s = Normal (length es) ∧
    (∀ a b v, eval (get a b) s = Normal (Some v) →
       ∃ e, filter (same_couple a b) es = [e] ∧ e.2 = v) ∧
    eval size s = Normal n ∧
    n ≤ 2 * length es ∧
    2 * length es ≤ n * (n + 1).
Proof.
  intros Hs%Inv_reachable.
  exists (first_visits [] (flat s)), (length s). split_and!.
  - apply eval_entries.
  - apply eval_count.
  - intros a b v. rewrite eval_get. intros [= Hab]. by apply entries_once.
  - done.
  - rewrite <-(length_fmap fst s).
    assert (Hsub : JsMap.keys s ⊆+
      (first_visits [] (flat s)).*1.*1 ++ (first_visits [] (flat s)).*1.*2).
    { apply NoDup_submseteq; [apply Hs|]. intros k. by apply keys_covered. }
    apply submseteq_length in Hsub.
    rewrite length_app, !length_fmap in Hsub. unfold JsMap.keys in Hsub. lia.
  - by apply entries_bound.
Qed.
(** Apart from the two cases of C1, the methods end normally: the
    queries and [set] in any store, [delete] on two different keys and
    [deleteAllFrom] on a key without a self-couple in a reachable
    store.  [delete k k] throws exactly when [(k, k)] is the only
    couple of [k]. *)
Lemma methods_complete_normally s :
  (∀ k1 k2 (v : T), eval (set k1 k2 v) s = Normal tt) ∧
  (∀ a b, eval (get a b) s = Normal (get2 a b s)) ∧
  (∀ k, eval (getAllFrom k) s = Normal (JsMap.get k s)) ∧
  (∀ k, eval (has k) s = Normal (JsMap.has k s)) ∧
  (∀ a b, eval (hasCouple a b) s = Normal (JsMap.has b (iterated a s))) ∧
  eval clear s = Normal tt ∧
  eval keys s = Normal (JsMap.keys s) ∧
  eval size s = Normal (JsMap.size s) ∧
  (∃ es, eval entries s = Normal es ∧
         eval keysCouples s = Normal es.*1 ∧
         eval values s = Normal es.*2 ∧
         eval count s = Normal (length es)) ∧
  (reachable s →
     (∀ k1 k2, k1 ≠ k2 → eval (delete k1 k2) s = Normal tt) ∧
     (∀ k, eval (delete k k) s = Throw ↔
           ∃ v, JsMap.get k s = Some [(k, v)]) ∧
     (∀ k, get2 k k s = None → eval (deleteAllFrom k) s = Normal tt)).
Proof.
  split_and!; try done.
  - intros. apply eval_set.
  - intros. apply eval_get.
  - intros. unfold eval. by rewrite hasCouple_run.
  - exists (first_visits [] (flat s)). split_and!.
    + apply eval_entries.
    + apply eval_keysCouples.
    + unfold eval, values, iterator. by rewrite bind_run, entries_run.
    + apply eval_count.
  - intros Hs%Inv_reachable. split_and!.
    + intros. by apply delete_normal.
    + intros. by apply delete_self_throws.
    + intros. by apply deleteAllFrom_normal.
Qed.
End properties.

Section properties_with_examples.
Context {K T : Type} `{EqDecision K}.
Implicit Types (s : JsMap K (JsMap K T)).

(** C5. Draining [entries] in a reachable store ends normally; every
    item carries a stored couple with its value, and every stored
    couple [{a, b}] is carried by exactly one item, in one of its two
    orders, with its value.  After [set("a", "b", 1)] and
    [set("c", "d", 2)] the items are two. *)
Theorem entries_deduplicated :
  (∀ s, reachable s →
     ∃ es, eval entries s = Normal es ∧
       (∀ a b v, ((a, b), v) ∈ es → eval (get a b) s = Normal (Some v)) ∧
       (∀ a b v, eval (get a b) s = Normal (Some v) →
          ∃ e, filter (same_couple a b) es = [e] ∧ e.2 = v)) ∧
  eval entries store_ab_cd = Normal [(("a", "b"), 1); (("c", "d"), 2)].
Proof.
  split; [|done].
  intros s Hs%Inv_reachable. exists (first_visits [] (flat s)).
  split_and!.
  - apply eval_entries.
  - intros a b v Hin. rewrite eval_get. f_equal. by apply entries_stored.
  - intros a b v. rewrite eval_get. intros [= Hab]. by apply entries_once.
Qed.

(** C8. Setting a couple again with its keys in the other order
    leaves the new value in both directions, and the store keeps the
    same top-level keys and yields the same couples as before: the
    couple is not stored a second time.  After [set("a", "b", 1)] and
    [set("b", "a", 2)] the store holds the one couple, with value 2. *)
Theorem reset_overwrites :
  (∀ s (a b : K) (v1 v2 : T),
     let s1 := exec (set a b v1) s in
     let s2 := exec (set b a v2) s1 in
     eval (get a b) s2 = Normal (Some v2) ∧
     eval (get b a) s2 = Normal (Some v2) ∧
     eval keys s2 = eval keys s1 ∧
     eval size s2 = eval size s1 ∧
     eval keysCouples s2 = eval keysCouples s1 ∧
     eval count s2 = eval count s1) ∧
  eval (get "a" "b") (exec (set "b" "a" 2) store_ab) = Normal (Some 2) ∧
  eval entries (exec (set "b" "a" 2) store_ab) = Normal [(("a", "b"), 2)] ∧
  eval count (exec (set "b" "a" 2) store_ab) = Normal 1.
Proof.
  split; [|done].
  intros s a b v1 v2 s1 s2.
  pose proof (skel_set_again a b v1 v2 s) as Hsk. fold s1 s2 in Hsk.
  pose proof (entries_skel _ _ Hsk) as Hes.
  split_and!.
  - rewrite eval_get. unfold s2. by rewrite get2_set, decide_True by tauto.
  - rewrite eval_get. unfold s2. by rewrite get2_set, decide_True by tauto.
  - unfold keys, read, eval, JsMap.keys. simpl. f_equal.
    apply (f_equal (fmap fst)) in Hsk. unfold skel in Hsk.
    rewrite <-!list_fmap_compose in Hsk. done.
  - unfold size, read, eval, JsMap.size. simpl. f_equal.
    apply (f_equal length) in Hsk. unfold skel in Hsk.
    by rewrite !length_fmap in Hsk.
  - rewrite !eval_keysCouples. by f_equal.
  - rewrite !eval_count. f_equal.
    apply (f_equal length) in Hes. by rewrite !length_fmap in Hes.
Qed.
End properties_with_examples.

(** C1. [delete] called on a key coupled with itself throws when that
    couple is the last one of the key: the first half of the method
    drops the key from [this.map], and the second half calls [delete]
    on the [undefined] that [this.map.get] then returns.  [deleteAllFrom]
    throws the same way when the self-couple is the last entry it
    visits. *)
Theorem delete_self_couple_throws :
  delete "a" "a" store_aa = (Throw, []) ∧
  deleteAllFrom "a" store_ab_aa = (Throw, []).
Proof. split; reflexivity. Qed.

(** ** Instances *)

Lemma set_delete_frame_witness :
  ¬ (("c" = "a" ∧ "d" = "b") ∨ ("c" = "b" ∧ "d" = "a")) ∧
  eval (get "c" "d") (exec (set "a" "b" 5) store_ab_cd) =
    eval (get "c" "d") store_ab_cd ∧
  eval (get "c" "d") (exec (delete "a" "b") store_ab_cd) =
    eval (get "c" "d") store_ab_cd.
Proof.
  assert (Hne : ¬ (("c" = "a" ∧ "d" = "b") ∨ ("c" = "b" ∧ "d" = "a"))).
  { intros [[? _]|[? _]]; discriminate. }
  split; [exact Hne|].
  exact (set_delete_frame store_ab_cd "a" "b" "c" "d" 5 Hne).
Defined.

Lemma symmetry_invariant_witness :
  reachable store_ab_cd ∧
  eval (get "a" "b") store_ab_cd = eval (get "b" "a") store_ab_cd.
Proof.
  assert (Hr : reachable store_ab_cd).
  { do 2 apply reachable_set. apply reachable_new. }
  split; [exact Hr|].
  exact (proj2 (symmetry_invariant store_ab_cd Hr) "a" "b").
Defined.

Lemma no_orphan_invariant_witness :
  reachable store_ab ∧
  eval (has "a") (exec (delete "a" "b") store_ab) = Normal false.
Proof.
  assert (Hr : reachable store_ab).
  { apply reachable_set, reachable_new. }
  split; [exact Hr|].
  apply (proj2 (proj2 (no_orphan_invariant store_ab Hr)) "a" "b").
  - reflexivity.
  - intros d Hd. unfold eval. rewrite hasCouple_run. simpl.
    unfold JsMap.has. simpl. by rewrite decide_False.
Defined.

Lemma entries_deduplicated_witness :
  reachable store_ab_cd ∧
  ∃ es, eval entries store_ab_cd = Normal es ∧
    (∀ a b v, ((a, b), v) ∈ es → eval (get a b) store_ab_cd = Normal (Some v)) ∧
    (∀ a b v, eval (get a b) store_ab_cd = Normal (Some v) →
       ∃ e, filter (same_couple a b) es = [e] ∧ e.2 = v).
Proof.
  assert (Hr : reachable store_ab_cd).
  { do 2 apply reachable_set. apply reachable_new. }
  split; [exact Hr|].
  exact (proj1 entries_deduplicated store_ab_cd Hr).
Defined.

Lemma deleteAllFrom_removes_key_witness :
  reachable store_ab_aa ∧
  eval (deleteAllFrom "a") store_ab_aa = Throw ∧
  eval (has "a") (exec (deleteAllFrom "a") store_ab_aa) = Normal false.
Proof.
  assert (Hr : reachable store_ab_aa).
  { do 2 apply reachable_set. apply reachable_new. }
  split; [exact Hr|]. split; [reflexivity|].
  exact (proj1 (proj2 (deleteAllFrom_removes_key store_ab_aa "a" Hr))).
Defined.

Lemma size_counts_keys_witness :
  "a" ≠ "b" ∧ reachable store_ab ∧
  eval size (exec (set "a" "b" 1) (new [])) = Normal 2 ∧
  ∃ ks, eval keys store_ab = Normal ks ∧ NoDup ks ∧
        eval size store_ab = Normal (length ks) ∧
        ∀ k, k ∈ ks ↔ ∃ d v, eval (get k d) store_ab = Normal (Some v).
Proof.
  assert (Hne : "a" ≠ "b") by discriminate.
  assert (Hr : reachable store_ab).
  { apply reachable_set, reachable_new. }
  split; [exact Hne|]. split; [exact Hr|]. split.
  - exact (proj1 (proj2 size_counts_keys) "a" "b" 1 Hne).
  - exact (proj2 (proj2 (proj2 size_counts_keys)) store_ab Hr).
Defined.

Lemma count_is_entries_length_witness :
  reachable store_aa_ab_bb ∧
  ∃ es n,
    eval entries store_aa_ab_bb = Normal es ∧
    eval count store_aa_ab_bb = Normal (length es) ∧
    (∀ a b v, eval (get a b) store_aa_ab_bb = Normal (Some v) →
       ∃ e, filter (same_couple a b) es = [e] ∧ e.2 = v) ∧
    eval size store_aa_ab_bb = Normal n ∧
    n ≤ 2 * length es ∧
    2 * length es ≤ n * (n + 1).
Proof.
  assert (Hr : reachable store_aa_ab_bb).
  { do 3 apply reachable_set. apply reachable_new. }
  split; [exact Hr|].
  exact (count_is_entries_length store_aa_ab_bb Hr).
Defined.

(** C2 as the specification states it fails: two keys carry three
    couples once a key may be coupled with itself, and four keys carry
    five couples without any self-couple. *)
Lemma count_exceeds_size :
  (reachable store_aa_ab_bb ∧
   eval entries store_aa_ab_bb =
     Normal [(("a", "a"), 1); (("a", "b"), 2); (("b", "b"), 3)] ∧
   eval count store_aa_ab_bb = Normal 3 ∧
   eval size store_aa_ab_bb = Normal 2) ∧
  (reachable store_four_keys ∧
   eval count store_four_keys = Normal 5 ∧
   eval size store_four_keys = Normal 4) ∧
  ¬ (∀ s : JsMap string (JsMap string nat), reachable s →
       ∃ c n, eval count s = Normal c ∧ eval size s = Normal n ∧ c ≤ n).
Proof.
  assert (Hr : reachable store_aa_ab_bb).
  { do 3 apply reachable_set. apply reachable_new. }
  split_and!; try reflexivity; try done.
  - do 5 apply reachable_set. apply reachable_new.
  - intros Hall. destruct (Hall store_aa_ab_bb Hr) as (c & n & Hc & Hn & Hle).
    vm_compute in Hc, Hn. simplify_eq. lia.
Qed.

(** * Further properties of the methods *)

Section more_properties.
Context {K T : Type} `{EqDecision K}.
Implicit Types (s : JsMap K (JsMap K T)).

Lemma eval_hasCouple a b s :
  eval (hasCouple a b) s = Normal (JsMap.has b (iterated a s)).
Proof. unfold eval. by rewrite hasCouple_run. Qed.


(** X2. [delete] of a couple that is not stored ends normally and
    leaves the store as it is, whatever the store. *)
Theorem delete_absent_couple_noop s (k1 k2 : K) :
  eval (hasCouple k1 k2) s = Normal false →
  delete k1 k2 s = (Normal tt, s).
Proof.
  rewrite eval_hasCouple. intros [= Hc]. by rewrite delete_run, Hc.
Qed.

(** X3. In the store that [delete k1 k2] leaves, reached from a
    reachable store, the couple is gone in both directions. *)
Theorem delete_removes_both_directions s (k1 k2 : K) :
  reachable s →
  eval (get k1 k2) (exec (delete k1 k2) s) = Normal None ∧
  eval (get k2 k1) (exec (delete k1 k2) s) = Normal None ∧
  eval (hasCouple k1 k2) (exec (delete k1 k2) s) = Normal false ∧
  eval (hasCouple k2 k1) (exec (delete k1 k2) s) = Normal false.
Proof.
  intros Hs%Inv_reachable.
  pose proof (Inv_delete k1 k2 s Hs) as Hs'.
  pose proof (get2_delete_same k1 k2 s) as H12.
  assert (H21 : get2 k2 k1 (exec (delete k1 k2) s) = None).
  { by rewrite get2_sym. }
  rewrite !eval_get, !eval_hasCouple, H12, H21. split_and!; try done.
  - f_equal. apply has_false. by rewrite <-get2_iterated.
  - f_equal. apply has_false. by rewrite <-get2_iterated.
Qed.

(** X4. A second [delete] of the same couple, in any store, ends
    normally and changes nothing. *)
Theorem delete_twice s (k1 k2 : K) :
  delete k1 k2 (exec (delete k1 k2) s) = (Normal tt, exec (delete k1 k2) s).
Proof.
  rewrite delete_run.
  replace (JsMap.has k2 (iterated k1 (exec (delete k1 k2) s))) with false;
    [done|].
  symmetry. apply has_false. rewrite <-get2_iterated.
  apply get2_delete_same.
Qed.

(** X5. In a reachable store, [set] of a couple that is not stored
    followed by [delete] of that couple gives back the very same store,
    the order of its keys included. *)
Theorem set_then_delete_restores s (k1 k2 : K) (v : T) :
  reachable s →
  eval (hasCouple k1 k2) s = Normal false →
  exec (delete k1 k2) (exec (set k1 k2 v) s) = s.
Proof.
  intros Hs%Inv_reachable. rewrite eval_hasCouple. intros [= Hc].
  apply set_delete_cancel; [done|].
  rewrite get2_iterated. by apply has_false.
Qed.

(** X6. [set] keeps the top-level keys in their order and appends the
    keys that are new, first [k1], then [k2]; [size] grows by the number
    of new keys. *)
Theorem set_appends_new_keys s (k1 k2 : K) (v : T) :
  let new_keys :=
    (if JsMap.has k1 s then [] else [k1]) ++
    (if JsMap.has k2 s || bool_decide (k2 = k1) then [] else [k2]) in
  eval keys (exec (set k1 k2 v) s) = Normal (JsMap.keys s ++ new_keys) ∧
  eval size (exec (set k1 k2 v) s) =
    Normal (JsMap.size s + length new_keys).
Proof.
  intros new_keys. pose proof (keys_exec_set k1 k2 v s) as Hk.
  split.
  - unfold keys, read, eval. simpl. by rewrite Hk.
  - unfold size, read, eval, JsMap.size. simpl. f_equal.
    apply (f_equal length) in Hk. unfold JsMap.keys in Hk.
    by rewrite length_app, !length_fmap in Hk.
Qed.

(** X7. [delete] and [deleteAllFrom] add no top-level key and do not
    reorder the keys: afterwards [keys] lists the former keys that are
    still there, in their former order. *)
Theorem delete_keeps_key_order s (k1 k2 : K) :
  (let s' := exec (delete k1 k2) s in
   eval keys s' =
     Normal (filter (λ c, JsMap.has c s' = true) (JsMap.keys s))) ∧
  (let s' := exec (deleteAllFrom k1) s in
   eval keys s' =
     Normal (filter (λ c, JsMap.has c s' = true) (JsMap.keys s))).
Proof.
  split; intros s'; unfold keys, read, eval; simpl; f_equal.
  - apply Kept_delete.
  - apply Kept_deleteAllFrom.
Qed.

(** X8. [deleteAllFrom k] leaves alone every couple that does not
    contain [k], whatever the store and however the call ends. *)
Theorem deleteAllFrom_frame s (k c d : K) :
  c ≠ k → d ≠ k →
  eval (get c d) (exec (deleteAllFrom k) s) = eval (get c d) s.
Proof.
  intros Hc Hd. rewrite !eval_get. f_equal.
  by apply get2_deleteAllFrom_other.
Qed.

(** X9. In a reachable store [delete k1 k2] throws exactly when the two
    keys are the same key and the couple of that key with itself is its
    only couple. *)
Theorem delete_throws_iff s (k1 k2 : K) :
  reachable s →
  (eval (delete k1 k2) s = Throw ↔
   k1 = k2 ∧ ∃ v, eval (getAllFrom k1) s = Normal (Some [(k1, v)])).
Proof.
  intros Hs%Inv_reachable. destruct (decide (k1 = k2)) as [->|Hne].
  - rewrite (delete_self_throws k2 s Hs). unfold getAllFrom, read, eval.
    simpl. split.
    + intros [v Hv]. split; [done|]. exists v. by rewrite Hv.
    + intros [_ [v [= Hv]]]. eauto.
  - rewrite (delete_normal k1 k2 s Hs Hne). split; [done|]. by intros [? _].
Qed.

(** X10. In a reachable store [deleteAllFrom k] throws exactly when the
    last entry of the inner map of [k] is the couple of [k] with
    itself. *)
Theorem deleteAllFrom_throws_iff s (k : K) :
  reachable s →
  (eval (deleteAllFrom k) s = Throw ↔
   ∃ m, eval (getAllFrom k) s = Normal (Some m) ∧
        last (JsMap.keys m) = Some k).
Proof.
  intros Hs%Inv_reachable. unfold eval at 1. rewrite deleteAllFrom_run.
  rewrite (loop_throws k s Hs). unfold getAllFrom, read, eval, iterated.
  simpl. destruct (JsMap.get k s) as [m|]; simpl.
  - split; [eauto|]. by intros [m' [[= ->] Hl]].
  - split; [done|]. by intros [m' [[=] _]].
Qed.

(** X11. The constructor applied to a list of items gives a reachable
    store in which [get a b] returns the value of the last item given
    for the couple [{a, b}], in either order of its keys, and nothing
    when no item carries that couple. *)
Theorem constructor_get (it : list ((K * K) * T)) (a b : K) :
  reachable (new it) ∧
  eval (get a b) (new it) = Normal (last_value a b it).
Proof.
  split; [apply reachable_new_from|].
  rewrite eval_get. unfold new. rewrite get2_for_each_set.
  by destruct (last_value a b it).
Qed.

(** X12. A store built by the constructor from [n] items has at most
    [2 * n] top-level keys and at most [n] couples. *)
Theorem constructor_bounds (it : list ((K * K) * T)) :
  ∃ n c, eval size (new it) = Normal n ∧ eval count (new it) = Normal c ∧
         n ≤ 2 * length it ∧ c ≤ length it.
Proof.
  exists (length (new it)), (length (first_visits [] (flat (new it)))).
  split_and!.
  - done.
  - apply eval_count.
  - unfold new. pose proof (size_for_each_set it []) as Hle. simpl in Hle.
    done.
  - apply count_new_le.
Qed.

(** X13. In a reachable store [keysCouples] and [values] go together:
    they have the same length, and the value at a position is what
    [get] returns for the couple at that position. *)
Theorem values_match_keysCouples s :
  reachable s →
  ∃ ps vs, eval keysCouples s = Normal ps ∧ eval values s = Normal vs ∧
           Forall2 (λ p v, eval (get p.1 p.2) s = Normal (Some v)) ps vs.
Proof.
  intros Hs%Inv_reachable.
  exists (first_visits [] (flat s)).*1, (first_visits [] (flat s)).*2.
  split_and!.
  - apply eval_keysCouples.
  - unfold eval, values, iterator. by rewrite bind_run, entries_run.
  - apply Forall2_fmap, Forall_Forall2_diag, Forall_forall.
    intros [[a b] v] Hin. simpl. rewrite eval_get. f_equal.
    by apply entries_stored.
Qed.


(** X15. [set k1 k2 v] and [delete k1 k2] do not touch the inner map of
    any other key: [getAllFrom c] returns the same map, entry for
    entry, before and after. *)
Theorem other_inner_maps_untouched s (k1 k2 c : K) (v : T) :
  c ≠ k1 → c ≠ k2 →
  eval (getAllFrom c) (exec (set k1 k2 v) s) = eval (getAllFrom c) s ∧
  eval (getAllFrom c) (exec (delete k1 k2) s) = eval (getAllFrom c) s.
Proof.
  intros H1 H2. unfold getAllFrom, read, eval. simpl.
  by rewrite get_exec_set_other, get_exec_delete_other.
Qed.

(** X16. In a reachable store, [set] on a couple that is already
    stored, in either order of its keys, only replaces the value: the
    top-level keys, the couples that the iteration yields and their
    order, [size] and [count] stay as they are. *)
Theorem set_existing_keeps_order s (k1 k2 : K) (v : T) :
  reachable s →
  eval (hasCouple k1 k2) s = Normal true →
  eval keys (exec (set k1 k2 v) s) = eval keys s ∧
  eval size (exec (set k1 k2 v) s) = eval size s ∧
  eval keysCouples (exec (set k1 k2 v) s) = eval keysCouples s ∧
  eval count (exec (set k1 k2 v) s) = eval count s.
Proof.
  intros Hs%Inv_reachable. rewrite eval_hasCouple.
  intros [= Hc%has_iterated_get2].
  pose proof (skel_exec_set k1 k2 v s Hs Hc) as Hsk.
  pose proof (entries_skel _ _ Hsk) as Hes.
  split_and!.
  - unfold keys, read, eval, JsMap.keys. simpl. f_equal.
    apply (f_equal (fmap fst)) in Hsk. unfold skel in Hsk.
    rewrite <-!list_fmap_compose in Hsk. done.
  - unfold size, read, eval, JsMap.size. simpl. f_equal.
    apply (f_equal length) in Hsk. unfold skel in Hsk.
    by rewrite !length_fmap in Hsk.
  - rewrite !eval_keysCouples. by f_equal.
  - rewrite !eval_count. f_equal.
    apply (f_equal length) in Hes. by rewrite !length_fmap in Hes.
Qed.

(** X17. In a reachable store, [set] of a couple that is not stored
    raises [count] by one. *)
Theorem set_new_couple_counts_one s (k1 k2 : K) (v : T) :
  reachable s →
  eval (hasCouple k1 k2) s = Normal false →
  ∃ c, eval count s = Normal c ∧
       eval count (exec (set k1 k2 v) s) = Normal (S c).
Proof.
  intros Hs%Inv_reachable. rewrite eval_hasCouple. intros [= Hc].
  eexists. split; [apply eval_count|]. rewrite eval_count. f_equal.
  apply count_set_new; [done|]. rewrite get2_iterated. by apply has_false.
Qed.

(** X18. In a reachable store, [delete] of a stored couple lowers
    [count] by one, also when the call ends by throwing. *)
Theorem delete_counts_one s (k1 k2 : K) :
  reachable s →
  eval (hasCouple k1 k2) s = Normal true →
  ∃ c, eval count (exec (delete k1 k2) s) = Normal c ∧
       eval count s = Normal (S c).
Proof.
  intros Hs%Inv_reachable. rewrite eval_hasCouple.
  intros [= Hc%has_iterated_get2].
  eexists. split; [apply eval_count|]. rewrite eval_count. f_equal.
  by apply count_delete.
Qed.

(** X19. In a reachable store, [deleteAllFrom k] lowers [count] by the
    number of entries of the inner map of [k], also when the call ends
    by throwing. *)
Theorem deleteAllFrom_counts s (k : K) :
  reachable s →
  ∃ c, eval count (exec (deleteAllFrom k) s) = Normal c ∧
       eval count s = Normal (c + JsMap.size (iterated k s)).
Proof.
  intros Hs%Inv_reachable.
  eexists. split; [apply eval_count|]. rewrite eval_count. f_equal.
  unfold exec. rewrite deleteAllFrom_run. by apply count_loop.
Qed.
End more_properties.

(** ** Instances of the further properties *)


Lemma delete_absent_couple_noop_witness :
  eval (hasCouple "c" "d") store_ab = Normal false ∧
  delete "c" "d" store_ab = (Normal tt, store_ab).
Proof.
  assert (Hc : eval (hasCouple "c" "d") store_ab = Normal false).
  { reflexivity. }
  split; [exact Hc|].
  exact (delete_absent_couple_noop store_ab "c" "d" Hc).
Defined.

Lemma delete_removes_both_directions_witness :
  reachable store_ab_cd ∧
  eval (get "a" "b") (exec (delete "a" "b") store_ab_cd) = Normal None ∧
  eval (get "b" "a") (exec (delete "a" "b") store_ab_cd) = Normal None.
Proof.
  assert (Hr : reachable store_ab_cd).
  { do 2 apply reachable_set. apply reachable_new. }
  split; [exact Hr|].
  pose proof (delete_removes_both_directions store_ab_cd "a" "b" Hr)
    as (H1 & H2 & _).
  exact (conj H1 H2).
Defined.

Lemma set_then_delete_restores_witness :
  reachable store_ab ∧
  eval (hasCouple "c" "d") store_ab = Normal false ∧
  exec (delete "c" "d") (exec (set "c" "d" 2) store_ab) = store_ab.
Proof.
  assert (Hr : reachable store_ab).
  { apply reachable_set, reachable_new. }
  assert (Hc : eval (hasCouple "c" "d") store_ab = Normal false).
  { reflexivity. }
  split; [exact Hr|]. split; [exact Hc|].
  exact (set_then_delete_restores store_ab "c" "d" 2 Hr Hc).
Defined.

Lemma deleteAllFrom_frame_witness :
  "c" ≠ "a" ∧ "d" ≠ "a" ∧
  eval (get "c" "d") (exec (deleteAllFrom "a") store_ab_cd) =
    eval (get "c" "d") store_ab_cd.
Proof.
  assert (Hc : "c" ≠ "a") by discriminate.
  assert (Hd : "d" ≠ "a") by discriminate.
  split; [exact Hc|]. split; [exact Hd|].
  exact (deleteAllFrom_frame store_ab_cd "a" "c" "d" Hc Hd).
Defined.

Lemma delete_throws_iff_witness :
  reachable store_aa ∧
  (eval (delete "a" "a") store_aa = Throw ↔
   "a" = "a" ∧ ∃ v, eval (getAllFrom "a") store_aa = Normal (Some [("a", v)])).
Proof.
  assert (Hr : reachable store_aa).
  { apply reachable_set, reachable_new. }
  split; [exact Hr|].
  exact (delete_throws_iff store_aa "a" "a" Hr).
Defined.

Lemma deleteAllFrom_throws_iff_witness :
  reachable store_ab_aa ∧
  (eval (deleteAllFrom "a") store_ab_aa = Throw ↔
   ∃ m, eval (getAllFrom "a") store_ab_aa = Normal (Some m) ∧
        last (JsMap.keys m) = Some "a").
Proof.
  assert (Hr : reachable store_ab_aa).
  { do 2 apply reachable_set. apply reachable_new. }
  split; [exact Hr|].
  exact (deleteAllFrom_throws_iff store_ab_aa "a" Hr).
Defined.

Lemma values_match_keysCouples_witness :
  reachable store_ab_cd ∧
  ∃ ps vs, eval keysCouples store_ab_cd = Normal ps ∧
           eval values store_ab_cd = Normal vs ∧
           Forall2 (λ p v, eval (get p.1 p.2) store_ab_cd = Normal (Some v))
             ps vs.
Proof.
  assert (Hr : reachable store_ab_cd).
  { do 2 apply reachable_set. apply reachable_new. }
  split; [exact Hr|].
  exact (values_match_keysCouples store_ab_cd Hr).
Defined.


Lemma other_inner_maps_untouched_witness :
  "c" ≠ "a" ∧ "c" ≠ "b" ∧
  eval (getAllFrom "c") (exec (set "a" "b" 7) store_ab_cd) =
    eval (getAllFrom "c") store_ab_cd ∧
  eval (getAllFrom "c") (exec (delete "a" "b") store_ab_cd) =
    eval (getAllFrom "c") store_ab_cd.
Proof.
  assert (Ha : "c" ≠ "a") by discriminate.
  assert (Hb : "c" ≠ "b") by discriminate.
  split; [exact Ha|]. split; [exact Hb|].
  exact (other_inner_maps_untouched store_ab_cd "a" "b" "c" 7 Ha Hb).
Defined.

Lemma set_existing_keeps_order_witness :
  reachable store_ab_cd ∧
  eval (hasCouple "b" "a") store_ab_cd = Normal true ∧
  eval keysCouples (exec (set "b" "a" 9) store_ab_cd) =
    eval keysCouples store_ab_cd.
Proof.
  assert (Hr : reachable store_ab_cd).
  { do 2 apply reachable_set. apply reachable_new. }
  assert (Hc : eval (hasCouple "b" "a") store_ab_cd = Normal true).
  { reflexivity. }
  split; [exact Hr|]. split; [exact Hc|].
  exact (proj1 (proj2 (proj2
    (set_existing_keeps_order store_ab_cd "b" "a" 9 Hr Hc)))).
Defined.

Lemma set_new_couple_counts_one_witness :
  reachable store_ab ∧
  eval (hasCouple "c" "d") store_ab = Normal false ∧
  ∃ c, eval count store_ab = Normal c ∧
       eval count (exec (set "c" "d" 2) store_ab) = Normal (S c).
Proof.
  assert (Hr : reachable store_ab).
  { apply reachable_set, reachable_new. }
  assert (Hc : eval (hasCouple "c" "d") store_ab = Normal false).
  { reflexivity. }
  split; [exact Hr|]. split; [exact Hc|].
  exact (set_new_couple_counts_one store_ab "c" "d" 2 Hr Hc).
Defined.

Lemma delete_counts_one_witness :
  reachable store_aa ∧
  eval (hasCouple "a" "a") store_aa = Normal true ∧
  ∃ c, eval count (exec (delete "a" "a") store_aa) = Normal c ∧
       eval count store_aa = Normal (S c).
Proof.
  assert (Hr : reachable store_aa).
  { apply reachable_set, reachable_new. }
  assert (Hc : eval (hasCouple "a" "a") store_aa = Normal true).
  { reflexivity. }
  split; [exact Hr|]. split; [exact Hc|].
  exact (delete_counts_one store_aa "a" "a" Hr Hc).
Defined.

Lemma deleteAllFrom_counts_witness :
  reachable store_ab_aa ∧
  ∃ c, eval count (exec (deleteAllFrom "a") store_ab_aa) = Normal c ∧
       eval count store_ab_aa = Normal (c + JsMap.size (iterated "a" store_ab_aa)).
Proof.
  assert (Hr : reachable store_ab_aa).
  { do 2 apply reachable_set. apply reachable_new. }
  split; [exact Hr|].
  exact (deleteAllFrom_counts store_ab_aa "a" Hr).
Defined.
